(** * De Bruijn graph construction (fasta.py)

    A shallow embedding of [add_sequence_to_graph], [build_de_bruijn_graph]
    and the sub-graph selection of [visualize_graph], together with the part
    of [networkx.DiGraph] these functions call ([add_edge], [has_edge],
    [number_of_nodes], [number_of_edges], [nodes], [subgraph]).

    Python values are modelled as follows.
    - [str] is [string], a sequence of code points below 256; [int] is [Z];
      slices follow Python's clamping rules, negative bounds included.
    - [dict] is an insertion-ordered association list with unique keys:
      assignment to a present key replaces the value in place, assignment to
      an absent key appends.
    - an exception is the [Raise] outcome of the [result] type.  *)

From Stdlib Require Import ZArith NArith List String Ascii Bool Lia.
From Stdlib.Strings Require Import Byte.
From Stdlib Require Import Permutation.
Import ListNotations.
Local Open Scope string_scope.
Local Open Scope list_scope.
Local Open Scope Z_scope.

(** ** Outcomes of a Python call *)

Inductive exn : Type :=
| ValueError (msg : string)
| KeyError.

Inductive result (A : Type) : Type :=
| Ok (a : A)
| Raise (e : exn).
Arguments Ok {A} a.
Arguments Raise {A} e.

Definition bind {A B : Type} (r : result A) (f : A -> result B) : result B :=
  match r with
  | Ok a => f a
  | Raise e => Raise e
  end.

Notation "x <- c1 ;; c2" := (bind c1 (fun x => c2))
  (at level 61, c1 at next level, right associativity).

(** [for x in xs: body], threading the mutated object through the iterations. *)
Fixpoint for_each {A S : Type} (xs : list A) (body : A -> S -> result S) (s : S)
  : result S :=
  match xs with
  | [] => Ok s
  | x :: rest => s' <- body x s ;; for_each rest body s'
  end.

(** ** Python objects used as nodes and attribute values *)

Inductive pyobj : Type :=
| PyNone
| PyStr (s : string).

Definition pyobj_eqb (a b : pyobj) : bool :=
  match a, b with
  | PyNone, PyNone => true
  | PyStr s, PyStr t => String.eqb s t
  | _, _ => false
  end.

(** ** Integers, ranges and slices *)

Definition len (s : string) : Z := Z.of_nat (String.length s).

(** [range(n)]: empty when [n <= 0]. *)
Definition py_range (n : Z) : list Z :=
  map Z.of_nat (seq 0 (Z.to_nat n)).

(** A slice bound [i] on a sequence of length [n]: negative bounds count from
    the end, and every bound is clamped into [0 .. n]. *)
Definition slice_index (n i : Z) : Z :=
  if i <? 0 then Z.max 0 (i + n) else Z.min i n.

Definition slice_bounds (n : Z) (start stop : option Z) : Z * Z :=
  (match start with None => 0 | Some i => slice_index n i end,
   match stop with None => n | Some j => slice_index n j end).

(** [s[start:stop]] on a [str]. *)
Definition py_slice (s : string) (start stop : option Z) : string :=
  let '(lo, hi) := slice_bounds (len s) start stop in
  substring (Z.to_nat lo) (Z.to_nat (hi - lo)) s.

(** [xs[start:stop]] on a [list]. *)
Definition list_slice {A : Type} (xs : list A) (start stop : option Z) : list A :=
  let '(lo, hi) := slice_bounds (Z.of_nat (List.length xs)) start stop in
  firstn (Z.to_nat (hi - lo)) (skipn (Z.to_nat lo) xs).

(** ** Insertion-ordered dictionaries *)

Definition dict (V : Type) : Type := list (pyobj * V).

Section Dict.
Context {V : Type}.

Fixpoint dict_get (d : dict V) (k : pyobj) : option V :=
  match d with
  | [] => None
  | (k', v) :: rest => if pyobj_eqb k' k then Some v else dict_get rest k
  end.

(** [k in d] *)
Definition dict_contains (d : dict V) (k : pyobj) : bool :=
  match dict_get d k with Some _ => true | None => false end.

(** [d[k]], which raises [KeyError] on an absent key. *)
Definition dict_getitem (d : dict V) (k : pyobj) : result V :=
  match dict_get d k with Some v => Ok v | None => Raise KeyError end.

(** [d[k] = v] *)
Fixpoint dict_setitem (d : dict V) (k : pyobj) (v : V) : dict V :=
  match d with
  | [] => [(k, v)]
  | (k', v') :: rest =>
      if pyobj_eqb k' k then (k', v) :: rest
      else (k', v') :: dict_setitem rest k v
  end.

(** [d.update(other)] *)
Definition dict_update (d other : dict V) : dict V :=
  fold_left (fun acc kv => dict_setitem acc (fst kv) (snd kv)) other d.

(** [list(d)] *)
Definition dict_keys (d : dict V) : list pyobj := map fst d.

(** The entries a filtered view exposes: those whose key passes [ok]. *)
Definition dict_filter (ok : pyobj -> bool) (d : dict V) : dict V :=
  filter (fun kv => ok (fst kv)) d.
End Dict.

(** ** [networkx.DiGraph] *)

(** An attribute dictionary, as attached to the graph, a node or an edge. *)
Definition attrs : Type := dict pyobj.

(** The state of a [DiGraph]: [graph], [_node], [_succ] (which [_adj]
    aliases) and [_pred].  The edge data dictionary is stored under
    [_succ[u][v]] and under [_pred[v][u]]; the program never mutates it after
    insertion, so both occurrences are modelled by value. *)
Record DiGraph : Type := mkDiGraph {
  graph : attrs;
  _node : dict attrs;
  _succ : dict (dict attrs);
  _pred : dict (dict attrs)
}.

(** [nx.DiGraph()] *)
Definition DiGraph_new : DiGraph := mkDiGraph [] [] [] [].

(** The node part of [add_edge]:
    [if u not in self._succ:
         if u is None: raise ValueError("None cannot be a node")
         self._succ[u] = {}; self._pred[u] = {}; self._node[u] = {}] *)
Definition add_edge_node (G : DiGraph) (u : pyobj) : result DiGraph :=
  if negb (dict_contains (_succ G) u) then
    match u with
    | PyNone => Raise (ValueError "None cannot be a node")
    | _ =>
        Ok (mkDiGraph (graph G)
                      (dict_setitem (_node G) u [])
                      (dict_setitem (_succ G) u [])
                      (dict_setitem (_pred G) u []))
    end
  else Ok G.

(** The edge part of [add_edge]:
    [datadict = self._adj[u].get(v, {})
     datadict.update(attr)
     self._succ[u][v] = datadict
     self._pred[v][u] = datadict] *)
Definition add_edge_data (G : DiGraph) (u v : pyobj) (attr : attrs)
  : result DiGraph :=
  adj_u <- dict_getitem (_succ G) u ;;
  let datadict :=
    dict_update (match dict_get adj_u v with Some d => d | None => [] end) attr in
  succ_u <- dict_getitem (_succ G) u ;;
  let succ' := dict_setitem (_succ G) u (dict_setitem succ_u v datadict) in
  pred_v <- dict_getitem (_pred G) v ;;
  let pred' := dict_setitem (_pred G) v (dict_setitem pred_v u datadict) in
  Ok (mkDiGraph (graph G) (_node G) succ' pred').

(** [G.add_edge(u, v, **attr)] *)
Definition add_edge (G : DiGraph) (u v : pyobj) (attr : attrs) : result DiGraph :=
  G1 <- add_edge_node G u ;;
  G2 <- add_edge_node G1 v ;;
  add_edge_data G2 u v attr.

(** [D[a][b]] when both keys are present. *)
Definition get2 (D : dict (dict attrs)) (a b : pyobj) : option attrs :=
  match dict_get D a with
  | Some row => dict_get row b
  | None => None
  end.

(** [G.has_node(n)]: [n in self._node] *)
Definition has_node (G : DiGraph) (n : pyobj) : bool :=
  dict_contains (_node G) n.

(** [G.get_edge_data(u, v)]: [self._adj[u][v]], or [None] when absent. *)
Definition get_edge_data (G : DiGraph) (u v : pyobj) : option attrs :=
  get2 (_succ G) u v.

(** [G.has_edge(u, v)]: [v in self._adj[u]], [False] on [KeyError]. *)
Definition has_edge (G : DiGraph) (u v : pyobj) : bool :=
  match get_edge_data G u v with Some _ => true | None => false end.

(** [list(G.nodes())] *)
Definition nodes (G : DiGraph) : list pyobj := dict_keys (_node G).

(** [list(G.edges())]: every [(u, v)] with [v] in [_adj[u]], in storage order. *)
Definition edges (G : DiGraph) : list (pyobj * pyobj) :=
  flat_map (fun '(u, nbrs) => map (fun v => (u, v)) (dict_keys nbrs)) (_succ G).

(** [G.number_of_nodes()] *)
Definition number_of_nodes (G : DiGraph) : Z := Z.of_nat (List.length (_node G)).

(** [G.number_of_edges()] *)
Definition number_of_edges (G : DiGraph) : Z := Z.of_nat (List.length (edges G)).

(** [G.number_of_edges(u, v)]: the number of edges from [u] to [v], which for
    a [DiGraph] is [1] when [v in self._adj[u]] and [0] otherwise.  It is the
    only per-edge count the graph holds. *)
Definition number_of_edges_between (G : DiGraph) (u v : pyobj) : Z :=
  if has_edge G u v then 1 else 0.

(** ** fasta.py *)

(** The value of [kmer] in iteration [i] of the loop: [seq[i:i+k]]. *)
Definition kmer_at (seq : string) (k i : Z) : string :=
  py_slice seq (Some i) (Some (i + k)).

(** [kmer[:-1]] *)
Definition prefix_of (kmer : string) : string := py_slice kmer None (Some (-1)).

(** [kmer[1:]] *)
Definition suffix_of (kmer : string) : string := py_slice kmer (Some 1) None.

(** The indices the loop visits: [range(len(seq) - k + 1)]. *)
Definition kmer_indices (seq : string) (k : Z) : list Z :=
  py_range (len seq - k + 1).

(** The k-mers the loop extracts, in iteration order. *)
Definition kmers (seq : string) (k : Z) : list string :=
  map (kmer_at seq k) (kmer_indices seq k).

Definition add_sequence_to_graph (seq : string) (G : DiGraph) (k : Z)
  : result DiGraph :=
  for_each (kmer_indices seq k)
    (fun i G =>
       let kmer := kmer_at seq k i in
       let prefix := prefix_of kmer in
       let suffix := suffix_of kmer in
       add_edge G (PyStr prefix) (PyStr suffix) [])
    G.

(** [c.isspace()] on the code points below 256. *)
Definition isspace (c : ascii) : bool :=
  let n := nat_of_ascii c in
  ((9 <=? n) && (n <=? 13) || (28 <=? n) && (n <=? 32)
   || (n =? 133) || (n =? 160))%nat.

Fixpoint lstrip (s : string) : string :=
  match s with
  | EmptyString => EmptyString
  | String c rest => if isspace c then lstrip rest else s
  end.

Fixpoint rstrip (s : string) : string :=
  match s with
  | EmptyString => EmptyString
  | String c rest =>
      match rstrip rest with
      | EmptyString => if isspace c then EmptyString else String c EmptyString
      | r => String c r
      end
  end.

(** [line.strip()] *)
Definition strip (s : string) : string := rstrip (lstrip s).

(** [line.startswith('>')] *)
Definition startswith_gt (line : string) : bool :=
  match line with
  | String c _ => Ascii.eqb c ">"%char
  | EmptyString => false
  end.

(** One iteration of [for line in f] in [build_de_bruijn_graph], on the
    pair of the graph and the local [seq]. *)
Definition build_line (k : Z) (line : string) (st : DiGraph * string)
  : result (DiGraph * string) :=
  let '(G, seq) := st in
  if startswith_gt line then
    if negb (String.eqb seq "") then
      G' <- add_sequence_to_graph seq G k ;; Ok (G', "")
    else Ok (G, seq)
  else Ok (G, seq ++ strip line)%string.

(** [build_de_bruijn_graph], on the lines the opened text file yields. *)
Definition build_de_bruijn_graph (lines : list string) (k : Z) : result DiGraph :=
  st <- for_each lines (build_line k) (DiGraph_new, "") ;;
  let '(G, seq) := st in
  if negb (String.eqb seq "") then add_sequence_to_graph seq G k else Ok G.

(** [n in nbunch] *)
Definition mem (nbunch : list pyobj) (n : pyobj) : bool :=
  existsb (pyobj_eqb n) nbunch.

(** [G.subgraph(nbunch)]: the view exposes the nodes of [G] that are in
    [nbunch] and the edges of [G] between them.  Only the content of the view
    is modelled, laid out in the order of [G]; the order in which networkx
    iterates over a view is not. *)
Definition subgraph (G : DiGraph) (nbunch : list pyobj) : DiGraph :=
  let within (d : dict (dict attrs)) : dict (dict attrs) :=
    map (fun '(u, nbrs) => (u, dict_filter (mem nbunch) nbrs))
        (dict_filter (mem nbunch) d) in
  mkDiGraph (graph G) (dict_filter (mem nbunch) (_node G))
            (within (_succ G)) (within (_pred G)).

(** The value of the local [subgraph] of [visualize_graph] before drawing:
    [if G.number_of_nodes() > num_nodes:
         subgraph_nodes = list(G.nodes())[:num_nodes]
         subgraph = G.subgraph(subgraph_nodes)
     else: subgraph = G] *)
Definition visualize_graph_subgraph (G : DiGraph) (num_nodes : Z) : DiGraph :=
  if number_of_nodes G >? num_nodes then
    let subgraph_nodes := list_slice (nodes G) None (Some num_nodes) in
    subgraph G subgraph_nodes
  else G.

(** ** Consistency of the three dictionaries of a graph *)

(** [_node], [_succ] and [_pred] list the same keys in the same order, without
    repetition, and an edge is recorded with the same data in [_succ[u][v]]
    and in [_pred[v][u]]. *)
Record well_formed (G : DiGraph) : Prop := {
  wf_succ_keys : dict_keys (_succ G) = dict_keys (_node G);
  wf_pred_keys : dict_keys (_pred G) = dict_keys (_node G);
  wf_nodup : NoDup (dict_keys (_node G));
  wf_mirror : forall u v, get2 (_succ G) u v = get2 (_pred G) v u
}.

(** The graphs a program can hold: [nx.DiGraph()] followed by any number of
    [add_sequence_to_graph] calls that returned. *)
Inductive reachable : DiGraph -> Prop :=
| reachable_new : reachable DiGraph_new
| reachable_ingest (G G' : DiGraph) (seq : string) (k : Z) :
    reachable G -> add_sequence_to_graph seq G k = Ok G' -> reachable G'.

(** ** A loop that adds one edge per element *)

(** The shape of the body of the loop of [add_sequence_to_graph]: the
    endpoints are two strings computed from the loop variable. *)
Definition loop_body {A : Type} (f g : A -> string) (x : A) (G : DiGraph)
  : result DiGraph :=
  add_edge G (PyStr (f x)) (PyStr (g x)) [].

(** Whether the loop over [xs] adds the pair [(a, b)]. *)
Definition adds {A : Type} (f g : A -> string) (xs : list A) (a b : pyobj)
  : bool :=
  existsb (fun x => pyobj_eqb (PyStr (f x)) a && pyobj_eqb (PyStr (g x)) b) xs.

(** ** Persistence codec *)

(** Modelled from the spec: the Graph Store with edge multiplicities of
    sections 3 and 4.3.  It is missing from the repository, whose graph is a
    [networkx.DiGraph] that keeps no multiplicity.  The record holds the
    window length the graph was built with, the nodes in iteration order and
    the edges, each with its multiplicity, in iteration order. *)
Record StoredGraph : Type := mkStoredGraph {
  stored_k : N;
  stored_nodes : list string;
  stored_edges : list (string * string * N)
}.

(** The invariant of section 3: the endpoints of every edge are nodes. *)
Definition stored_closed (G : StoredGraph) : Prop :=
  forall u v m, In (u, v, m) (stored_edges G) ->
                In u (stored_nodes G) /\ In v (stored_nodes G).

Definition stored_closedb (G : StoredGraph) : bool :=
  forallb (fun e =>
             existsb (String.eqb (fst (fst e))) (stored_nodes G) &&
             existsb (String.eqb (snd (fst e))) (stored_nodes G))
          (stored_edges G).

Definition byte_of_N (n : N) : byte :=
  match Byte.of_N n with Some b => b | None => x00 end.

(** Modelled from the spec: the integers of the header and of the tables.
    The spec names the fields and leaves their encoding open; a field is
    written here in groups of seven bits, lowest group first, the high bit
    of a byte telling that another group follows. *)
Fixpoint encode_varint_groups (more : nat) (n : N) : list byte :=
  match more with
  | O => [byte_of_N (n mod 128)]
  | S more' =>
      if (n <? 128)%N then [byte_of_N n]
      else byte_of_N (128 + n mod 128) :: encode_varint_groups more' (n / 128)
  end.

Definition encode_varint (n : N) : list byte :=
  encode_varint_groups (N.to_nat (N.size n)) n.

Fixpoint decode_varint (bs : list byte) : option (N * list byte) :=
  match bs with
  | [] => None
  | b :: rest =>
      let v := Byte.to_N b in
      if (v <? 128)%N then Some (v, rest)
      else match decode_varint rest with
           | Some (hi, rest') => Some (v - 128 + 128 * hi, rest')%N
           | None => None
           end
  end.

(** Modelled from the spec: an entry of the node table, "each node's
    string", written as its length followed by its symbols. *)
Definition encode_string (s : string) : list byte :=
  encode_varint (N.of_nat (String.length s)) ++ list_byte_of_string s.

Definition decode_string (bs : list byte) : option (string * list byte) :=
  match decode_varint bs with
  | Some (n, rest) =>
      if (List.length rest <? N.to_nat n)%nat then None
      else Some (string_of_list_byte (firstn (N.to_nat n) rest),
                 skipn (N.to_nat n) rest)
  | None => None
  end.

(** The index of the first occurrence of [u] in the node table, or the size
    of the table when [u] is not in it. *)
Fixpoint node_index (u : string) (table : list string) : nat :=
  match table with
  | [] => O
  | w :: rest => if String.eqb w u then O else S (node_index u rest)
  end.

(** Modelled from the spec: an entry of the edge table, "a pair of node
    indices plus a multiplicity integer". *)
Definition encode_edge (table : list string) (e : string * string * N)
  : list byte :=
  let '(u, v, m) := e in
  encode_varint (N.of_nat (node_index u table)) ++
  encode_varint (N.of_nat (node_index v table)) ++
  encode_varint m.

(** An edge entry whose index lies outside the node table is refused. *)
Definition decode_edge (table : list string) (bs : list byte)
  : option (string * string * N * list byte) :=
  match decode_varint bs with
  | Some (i, r1) =>
      match decode_varint r1 with
      | Some (j, r2) =>
          match decode_varint r2 with
          | Some (m, r3) =>
              match nth_error table (N.to_nat i), nth_error table (N.to_nat j) with
              | Some u, Some v => Some (u, v, m, r3)
              | _, _ => None
              end
          | None => None
          end
      | None => None
      end
  | None => None
  end.

(** [count] consecutive entries. *)
Fixpoint decode_table {A : Type} (entry : list byte -> option (A * list byte))
  (count : nat) (bs : list byte) : option (list A * list byte) :=
  match count with
  | O => Some ([], bs)
  | S count' =>
      match entry bs with
      | Some (a, rest) =>
          match decode_table entry count' rest with
          | Some (l, rest') => Some (a :: l, rest')
          | None => None
          end
      | None => None
      end
  end.

Definition format_version : N := 1.

(** Modelled from the spec: [serialize], the layout of section 4.4: a header
    (format version, k used, node count, edge count), the node table, the
    edge table. *)
Definition serialize (G : StoredGraph) : list byte :=
  encode_varint format_version ++
  encode_varint (stored_k G) ++
  encode_varint (N.of_nat (List.length (stored_nodes G))) ++
  encode_varint (N.of_nat (List.length (stored_edges G))) ++
  flat_map encode_string (stored_nodes G) ++
  flat_map (encode_edge (stored_nodes G)) (stored_edges G).

Inductive decoded : Type :=
| Decoded (G : StoredGraph)
| CorruptData.

(** Modelled from the spec: [deserialize], all or nothing.  It fails with
    [CorruptData] when the declared counts do not match the records present
    (too few bytes, or bytes left over) and when an edge refers to an index
    outside the node table. *)
Definition deserialize (bs : list byte) : decoded :=
  match decode_varint bs with
  | Some (version, r1) =>
      if negb (version =? format_version)%N then CorruptData else
      match decode_varint r1 with
      | Some (k, r2) =>
          match decode_varint r2 with
          | Some (node_count, r3) =>
              match decode_varint r3 with
              | Some (edge_count, r4) =>
                  match decode_table decode_string (N.to_nat node_count) r4 with
                  | Some (table, r5) =>
                      match decode_table
                              (fun b =>
                                 match decode_edge table b with
                                 | Some (u, v, m, r) => Some ((u, v, m), r)
                                 | None => None
                                 end)
                              (N.to_nat edge_count) r5 with
                      | Some (es, []) => Decoded (mkStoredGraph k table es)
                      | _ => CorruptData
                      end
                  | None => CorruptData
                  end
              | None => CorruptData
              end
          | None => CorruptData
          end
      | None => CorruptData
      end
  | None => CorruptData
  end.

(** ** Reading the construction as parse-then-ingest *)

(** The calls [add_sequence_to_graph(seq, G, k)] made one after the other on
    the same graph, for the sequences of a list. *)
Definition ingest_all (seqs : list string) (k : Z) (G : DiGraph)
  : result DiGraph :=
  for_each seqs (fun seq G => add_sequence_to_graph seq G k) G.

(** The records of a FASTA text, given the content [seq] gathered so far: a
    record is the concatenation of the stripped lines between two header
    lines, and a record without content is left out. *)
Fixpoint fasta_records_from (seq : string) (lines : list string) : list string :=
  match lines with
  | [] => if String.eqb seq "" then [] else [seq]
  | line :: rest =>
      if startswith_gt line then
        (if String.eqb seq "" then [] else [seq]) ++ fasta_records_from "" rest
      else fasta_records_from (seq ++ strip line)%string rest
  end.

Definition fasta_records (lines : list string) : list string :=
  fasta_records_from "" lines.

(** The k-mers of all the sequences of a list, in extraction order. *)
Definition all_kmers (seqs : list string) (k : Z) : list string :=
  flat_map (fun seq => kmers seq k) seqs.

(** The edge [add_sequence_to_graph] adds for a k-mer. *)
Definition edge_of (kmer : string) : pyobj * pyobj :=
  (PyStr (prefix_of kmer), PyStr (suffix_of kmer)).

(** The two nodes [add_sequence_to_graph] adds for a k-mer. *)
Definition endpoints_of (kmer : string) : list pyobj :=
  [PyStr (prefix_of kmer); PyStr (suffix_of kmer)].

(** No inner dictionary of [_succ] lists a key twice. *)
Definition rows_nodup (G : DiGraph) : Prop :=
  forall u row, In (u, row) (_succ G) -> NoDup (dict_keys row).



(** The order of the nodes only grows at the end, and the inner
    dictionaries stay free of repeated keys. *)
Definition extends (G G' : DiGraph) : Prop :=
  (exists l, nodes G' = nodes G ++ l) /\ (rows_nodup G -> rows_nodup G').

(** ** FASTA texts *)

(** The lines of a text made of records, each a header line followed by its
    body lines. *)
Definition fasta_text (recs : list (string * list string)) : list string :=
  flat_map (fun r => fst r :: snd r) recs.

(** The sequence of a record: its body lines, each stripped, joined. *)
Definition record_sequence (body : list string) : string :=
  fold_right String.append "" (map strip body).

(** Each header line starts with [>] and no body line does. *)
Definition is_fasta (recs : list (string * list string)) : Prop :=
  Forall (fun r => startswith_gt (fst r) = true /\
                   Forall (fun line => startswith_gt line = false) (snd r))
         recs.

Definition is_fastab (recs : list (string * list string)) : bool :=
  forallb (fun r => startswith_gt (fst r) &&
                    forallb (fun line => negb (startswith_gt line)) (snd r))
          recs.

(** The sequences of the records that have content. *)
Definition record_sequences (recs : list (string * list string)) : list string :=
  filter (fun seq => negb (String.eqb seq ""))
         (map (fun r => record_sequence (snd r)) recs).

(** The (k-1)-mers of the sequences that are long enough to hold a k-mer. *)
Definition node_mers (seqs : list string) (k : Z) : list string :=
  flat_map (fun seq => if len seq <? k then [] else kmers seq (k - 1)) seqs.

(** A string made of whitespace only, such as a line terminator. *)
Fixpoint is_blank (w : string) : bool :=
  match w with
  | EmptyString => true
  | String c rest => isspace c && is_blank rest
  end.

(** * Properties *)

(** ** Equality of Python objects *)

Lemma pyobj_eqb_eq (a b : pyobj) : pyobj_eqb a b = true <-> a = b.
Proof.
  destruct a as [|s], b as [|t]; simpl; split; intro H;
    try reflexivity; try discriminate.
  - apply String.eqb_eq in H. now subst.
  - injection H as ->. apply String.eqb_refl.
Qed.

Lemma pyobj_eqb_refl (a : pyobj) : pyobj_eqb a a = true.
Proof. now apply pyobj_eqb_eq. Qed.

Lemma pyobj_eqb_neq (a b : pyobj) : pyobj_eqb a b = false <-> a <> b.
Proof.
  split.
  - intros H ->. rewrite pyobj_eqb_refl in H. discriminate.
  - intro H. destruct (pyobj_eqb a b) eqn:E; [|reflexivity].
    now apply pyobj_eqb_eq in E.
Qed.

Lemma pyobj_eqb_sym (a b : pyobj) : pyobj_eqb a b = pyobj_eqb b a.
Proof.
  destruct (pyobj_eqb b a) eqn:E.
  - apply pyobj_eqb_eq in E. subst. apply pyobj_eqb_refl.
  - apply pyobj_eqb_neq in E. apply pyobj_eqb_neq. congruence.
Qed.

Lemma mem_In (l : list pyobj) (n : pyobj) : mem l n = true <-> In n l.
Proof.
  unfold mem. rewrite existsb_exists. split.
  - intros (x & Hx & E). apply pyobj_eqb_eq in E. now subst.
  - intro H. exists n. split; [assumption | apply pyobj_eqb_refl].
Qed.

(** ** Dictionaries *)

Section DictFacts.
Context {V : Type}.
Implicit Types (d : dict V) (k : pyobj) (v : V).

Lemma dict_get_setitem d k v k' :
  dict_get (dict_setitem d k v) k' =
  if pyobj_eqb k k' then Some v else dict_get d k'.
Proof.
  induction d as [|[k0 v0] d IH]; simpl.
  - reflexivity.
  - destruct (pyobj_eqb k0 k) eqn:E0; simpl.
    + apply pyobj_eqb_eq in E0. subst k0.
      now destruct (pyobj_eqb k k').
    + rewrite IH. destruct (pyobj_eqb k0 k') eqn:E1; [|reflexivity].
      apply pyobj_eqb_eq in E1. subst k0. now rewrite pyobj_eqb_sym, E0.
Qed.

Lemma dict_setitem_same d k v :
  dict_get d k = Some v -> dict_setitem d k v = d.
Proof.
  induction d as [|[k0 v0] d IH]; simpl; [discriminate|].
  destruct (pyobj_eqb k0 k); intro H.
  - now injection H as ->.
  - now rewrite IH.
Qed.

Lemma dict_contains_In d k : dict_contains d k = true <-> In k (dict_keys d).
Proof.
  unfold dict_contains.
  induction d as [|[k0 v0] d IH]; simpl.
  - split; [discriminate | tauto].
  - destruct (pyobj_eqb k0 k) eqn:E.
    + apply pyobj_eqb_eq in E. tauto.
    + apply pyobj_eqb_neq in E. rewrite IH. tauto.
Qed.

Lemma dict_get_In d k v : dict_get d k = Some v -> In k (dict_keys d).
Proof.
  intro H. apply dict_contains_In. unfold dict_contains. now rewrite H.
Qed.

Lemma dict_get_None d k : dict_get d k = None <-> ~ In k (dict_keys d).
Proof.
  rewrite <- dict_contains_In. unfold dict_contains.
  destruct (dict_get d k); split; intro H; try reflexivity;
    try discriminate; try (intro; discriminate).
  now elim H.
Qed.

Lemma dict_keys_setitem_present d k v :
  In k (dict_keys d) -> dict_keys (dict_setitem d k v) = dict_keys d.
Proof.
  induction d as [|[k0 v0] d IH]; simpl; [tauto|].
  destruct (pyobj_eqb k0 k) eqn:E; simpl; [reflexivity|].
  apply pyobj_eqb_neq in E. intros [H|H]; [contradiction|]. now rewrite IH.
Qed.

Lemma dict_keys_setitem_absent d k v :
  ~ In k (dict_keys d) -> dict_keys (dict_setitem d k v) = dict_keys d ++ [k].
Proof.
  induction d as [|[k0 v0] d IH]; simpl; [reflexivity|].
  destruct (pyobj_eqb k0 k) eqn:E; simpl.
  - apply pyobj_eqb_eq in E. tauto.
  - intro H. rewrite IH; [reflexivity | tauto].
Qed.

Lemma dict_keys_filter (ok : pyobj -> bool) d :
  dict_keys (dict_filter ok d) = filter ok (dict_keys d).
Proof.
  induction d as [|[k0 v0] d IH]; simpl; [reflexivity|].
  destruct (ok k0); simpl; now rewrite IH.
Qed.
End DictFacts.

(** ** Graph updates *)

Lemma get2_setitem2 (D : dict (dict attrs)) u v row x a b :
  dict_get D u = Some row ->
  get2 (dict_setitem D u (dict_setitem row v x)) a b =
  if pyobj_eqb u a && pyobj_eqb v b then Some x else get2 D a b.
Proof.
  intro Hrow. unfold get2. rewrite dict_get_setitem.
  destruct (pyobj_eqb u a) eqn:Ea; simpl; [|reflexivity].
  apply pyobj_eqb_eq in Ea. subst a. rewrite dict_get_setitem, Hrow.
  reflexivity.
Qed.

Lemma get2_Some_In (D : dict (dict attrs)) a b d :
  get2 D a b = Some d -> In a (dict_keys D).
Proof.
  unfold get2. destruct (dict_get D a) eqn:E; [|discriminate].
  intros _. now apply dict_get_In in E.
Qed.

Lemma get2_setitem_fresh (D : dict (dict attrs)) u a b :
  ~ In u (dict_keys D) -> get2 (dict_setitem D u []) a b = get2 D a b.
Proof.
  intro Hu. unfold get2. rewrite dict_get_setitem.
  destruct (pyobj_eqb u a) eqn:E; [|reflexivity].
  apply pyobj_eqb_eq in E. subst a.
  apply dict_get_None in Hu. now rewrite Hu.
Qed.

Lemma well_formed_new : well_formed DiGraph_new.
Proof. split; simpl; auto using NoDup_nil. Qed.

Lemma DiGraph_eta (G : DiGraph) :
  mkDiGraph (graph G) (_node G) (_succ G) (_pred G) = G.
Proof. now destruct G. Qed.

Lemma has_edge_data (G : DiGraph) u v :
  has_edge G u v = true <-> exists d, get_edge_data G u v = Some d.
Proof.
  unfold has_edge. destruct (get_edge_data G u v) as [d|].
  - split; [now exists d | reflexivity].
  - split; [discriminate | now intros [d H]].
Qed.

Lemma has_node_In (G : DiGraph) n : has_node G n = true <-> In n (nodes G).
Proof. apply dict_contains_In. Qed.

(** The node part of [add_edge] returns for every node other than [None]; it
    keeps the graph consistent, touches no edge, and appends the node when it
    is new. *)
Lemma add_edge_node_ok (G : DiGraph) (u : pyobj) :
  well_formed G -> u <> PyNone ->
  exists G',
    add_edge_node G u = Ok G' /\ well_formed G' /\
    (forall a b, get_edge_data G' a b = get_edge_data G a b) /\
    nodes G' = (if has_node G u then nodes G else nodes G ++ [u]) /\
    graph G' = graph G.
Proof.
  intros [Hs Hp Hn Hm] Hu. unfold add_edge_node, has_node, nodes.
  destruct (dict_contains (_succ G) u) eqn:Ec; simpl.
  - exists G. repeat split; auto.
    apply dict_contains_In in Ec. rewrite Hs in Ec.
    apply dict_contains_In in Ec. now rewrite Ec.
  - assert (Hnot : ~ In u (dict_keys (_node G))).
    { rewrite <- Hs. intro H. apply dict_contains_In in H. congruence. }
    assert (Hc : dict_contains (_node G) u = false).
    { destruct (dict_contains (_node G) u) eqn:E; [|reflexivity].
      apply dict_contains_In in E. contradiction. }
    rewrite Hc.
    exists (mkDiGraph (graph G) (dict_setitem (_node G) u [])
              (dict_setitem (_succ G) u []) (dict_setitem (_pred G) u [])).
    split; [now destruct u|].
    split; [|split; [|split]]; simpl.
    + split; simpl.
      * rewrite !dict_keys_setitem_absent by (rewrite ?Hs; assumption).
        now rewrite Hs.
      * rewrite !dict_keys_setitem_absent by (rewrite ?Hp; assumption).
        now rewrite Hp.
      * rewrite dict_keys_setitem_absent by assumption.
        apply NoDup_app; [assumption | repeat constructor; simpl; tauto |].
        intros x Hx [<-|[]]. contradiction.
      * intros a b. rewrite !get2_setitem_fresh by (rewrite ?Hs, ?Hp; assumption).
        apply Hm.
    + intros a b. unfold get_edge_data. simpl.
      apply get2_setitem_fresh. now rewrite Hs.
    + now apply dict_keys_setitem_absent.
    + reflexivity.
Qed.

(** The edge part of [add_edge], on a consistent graph holding both
    endpoints: it returns, records the pair with the data already stored for
    it (or [{}] for a new pair) and changes nothing else. *)
Lemma add_edge_data_ok (G : DiGraph) (u v : pyobj) :
  well_formed G -> In u (nodes G) -> In v (nodes G) ->
  exists G',
    add_edge_data G u v [] = Ok G' /\ well_formed G' /\
    (forall a b,
        get_edge_data G' a b =
        if pyobj_eqb u a && pyobj_eqb v b
        then Some (match get_edge_data G u v with Some d => d | None => [] end)
        else get_edge_data G a b) /\
    nodes G' = nodes G /\ graph G' = graph G.
Proof.
  intros [Hs Hp Hn Hm] Hu Hv. unfold nodes in *.
  assert (Hus : In u (dict_keys (_succ G))) by now rewrite Hs.
  assert (Hvp : In v (dict_keys (_pred G))) by now rewrite Hp.
  destruct (dict_get (_succ G) u) as [row|] eqn:Erow;
    [|apply dict_get_None in Erow; contradiction].
  destruct (dict_get (_pred G) v) as [col|] eqn:Ecol;
    [|apply dict_get_None in Ecol; contradiction].
  unfold add_edge_data, dict_getitem. rewrite Erow, Ecol. simpl.
  eexists. split; [reflexivity|].
  assert (Hdata : get_edge_data G u v = dict_get row v).
  { unfold get_edge_data, get2. now rewrite Erow. }
  split; [|split; [|split]]; simpl.
  - split; simpl.
    + now rewrite dict_keys_setitem_present.
    + now rewrite dict_keys_setitem_present.
    + assumption.
    + intros a b.
      rewrite (get2_setitem2 _ _ _ _ _ _ _ Erow), (get2_setitem2 _ _ _ _ _ _ _ Ecol).
      destruct (pyobj_eqb u a) eqn:Ea, (pyobj_eqb v b) eqn:Eb; simpl;
        try reflexivity; apply Hm.
  - intros a b. unfold get_edge_data at 1. simpl.
    rewrite (get2_setitem2 _ _ _ _ _ _ _ Erow), Hdata. reflexivity.
  - reflexivity.
  - reflexivity.
Qed.

(** Recording a pair that is already an edge leaves the graph as it is. *)
Lemma add_edge_data_present (G : DiGraph) (u v : pyobj) :
  well_formed G -> has_edge G u v = true -> add_edge_data G u v [] = Ok G.
Proof.
  intros [Hs Hp Hn Hm] He.
  apply has_edge_data in He. destruct He as [d Hd].
  unfold get_edge_data in Hd.
  pose proof Hd as Hd'. rewrite Hm in Hd'.
  unfold get2 in Hd, Hd'.
  destruct (dict_get (_succ G) u) as [row|] eqn:Erow; [|discriminate].
  destruct (dict_get (_pred G) v) as [col|] eqn:Ecol; [|discriminate].
  unfold add_edge_data, dict_getitem. rewrite Erow, Ecol. simpl.
  rewrite Hd. simpl.
  rewrite (dict_setitem_same row v d Hd), (dict_setitem_same col u d Hd').
  rewrite (dict_setitem_same _ u row Erow), (dict_setitem_same _ v col Ecol).
  now rewrite DiGraph_eta.
Qed.

Lemma edge_endpoints_in_nodes (G : DiGraph) (u v : pyobj) :
  well_formed G -> has_edge G u v = true -> In u (nodes G) /\ In v (nodes G).
Proof.
  intros [Hs Hp Hn Hm] He. apply has_edge_data in He. destruct He as [d Hd].
  unfold get_edge_data in Hd. unfold nodes. split.
  - rewrite <- Hs. eapply get2_Some_In; eassumption.
  - rewrite <- Hp. rewrite Hm in Hd. eapply get2_Some_In; eassumption.
Qed.

Lemma add_edge_node_present (G : DiGraph) (u : pyobj) :
  well_formed G -> In u (nodes G) -> add_edge_node G u = Ok G.
Proof.
  intros [Hs Hp Hn Hm] Hu. unfold add_edge_node, nodes in *.
  rewrite <- Hs in Hu. apply dict_contains_In in Hu. now rewrite Hu.
Qed.

(** [add_edge] on an existing edge is the identity on the whole graph. *)
Lemma add_edge_present (G : DiGraph) (u v : pyobj) :
  well_formed G -> has_edge G u v = true -> add_edge G u v [] = Ok G.
Proof.
  intros Hwf He. destruct (edge_endpoints_in_nodes G u v Hwf He) as [Hu Hv].
  unfold add_edge. rewrite (add_edge_node_present G u Hwf Hu). simpl.
  rewrite (add_edge_node_present G v Hwf Hv). simpl.
  now apply add_edge_data_present.
Qed.

(** [add_edge] between two nodes other than [None] returns a consistent
    graph with the pair recorded, every other edge left as it was, and the
    endpoints appended to the nodes when new, [u] before [v]. *)
Lemma add_edge_ok (G : DiGraph) (u v : pyobj) :
  well_formed G -> u <> PyNone -> v <> PyNone ->
  exists G',
    add_edge G u v [] = Ok G' /\ well_formed G' /\
    (forall a b,
        get_edge_data G' a b =
        if pyobj_eqb u a && pyobj_eqb v b
        then Some (match get_edge_data G u v with Some d => d | None => [] end)
        else get_edge_data G a b) /\
    (forall n, In n (nodes G') <-> In n (nodes G) \/ n = u \/ n = v) /\
    graph G' = graph G.
Proof.
  intros Hwf Hu Hv. unfold add_edge.
  destruct (add_edge_node_ok G u Hwf Hu) as (G1 & E1 & Hwf1 & Hd1 & Hn1 & Hg1).
  destruct (add_edge_node_ok G1 v Hwf1 Hv) as (G2 & E2 & Hwf2 & Hd2 & Hn2 & Hg2).
  rewrite E1. simpl. rewrite E2. simpl.
  assert (Hnodes : forall n, In n (nodes G2) <-> In n (nodes G) \/ n = u \/ n = v).
  { intro n. rewrite Hn2, Hn1.
    destruct (has_node G1 v) eqn:Ev, (has_node G u) eqn:Eu;
      try apply has_node_In in Ev; try apply has_node_In in Eu;
      rewrite ?Hn1, ?Eu in Ev; rewrite ?in_app_iff; simpl;
      try rewrite in_app_iff in Ev; simpl in Ev;
      intuition (subst; auto). }
  destruct (add_edge_data_ok G2 u v Hwf2) as (G3 & E3 & Hwf3 & Hd3 & Hn3 & Hg3).
  { apply Hnodes. auto. }
  { apply Hnodes. auto. }
  exists G3. split; [assumption|]. split; [assumption|].
  split; [|split].
  - intros a b. rewrite Hd3, !Hd2, !Hd1. reflexivity.
  - intro n. rewrite Hn3. apply Hnodes.
  - congruence.
Qed.

(** ** The ingestion loop *)

Section Loop.
Context {A : Type} (f g : A -> string).

Lemma adds_cons x xs a b :
  adds f g (x :: xs) a b =
  pyobj_eqb (PyStr (f x)) a && pyobj_eqb (PyStr (g x)) b || adds f g xs a b.
Proof. reflexivity. Qed.

Lemma adds_spec xs a b :
  adds f g xs a b = true <->
  exists x, In x xs /\ a = PyStr (f x) /\ b = PyStr (g x).
Proof.
  unfold adds. rewrite existsb_exists. split.
  - intros (x & Hx & E). apply andb_true_iff in E. destruct E as [Ea Eb].
    apply pyobj_eqb_eq in Ea, Eb. eauto.
  - intros (x & Hx & -> & ->). exists x.
    now rewrite !pyobj_eqb_refl.
Qed.

(** The loop returns on every consistent graph.  An edge of the result is
    an edge of the start graph, with its data, or one of the pairs the loop
    visits, with the data [{}]. *)
Lemma loop_ok (xs : list A) : forall G,
  well_formed G ->
  exists G',
    for_each xs (loop_body f g) G = Ok G' /\ well_formed G' /\
    (forall a b,
        get_edge_data G' a b =
        match get_edge_data G a b with
        | Some d => Some d
        | None => if adds f g xs a b then Some [] else None
        end) /\
    (forall n, In n (nodes G') <->
               In n (nodes G) \/
               exists x, In x xs /\ (n = PyStr (f x) \/ n = PyStr (g x))) /\
    graph G' = graph G.
Proof.
  induction xs as [|x rest IH]; intros G Hwf; cbn [for_each].
  - exists G. split; [reflexivity|]. split; [assumption|].
    split; [|split; [|reflexivity]].
    + intros a b. now destruct (get_edge_data G a b).
    + intro n. split; [auto|]. intros [H|(x & [] & _)]. assumption.
  - destruct (add_edge_ok G (PyStr (f x)) (PyStr (g x)) Hwf)
      as (G1 & E1 & Hwf1 & Hd1 & Hn1 & Hg1); try discriminate.
    destruct (IH G1 Hwf1) as (G' & E' & Hwf' & Hd' & Hn' & Hg').
    exists G'. unfold loop_body at 1. rewrite E1. cbn [bind].
    split; [assumption|]. split; [assumption|]. split; [|split].
    + intros a b. rewrite Hd', Hd1, adds_cons.
      destruct (pyobj_eqb (PyStr (f x)) a) eqn:Ea,
               (pyobj_eqb (PyStr (g x)) b) eqn:Eb;
        cbn [andb orb]; try reflexivity.
      apply pyobj_eqb_eq in Ea, Eb. subst a b.
      now destruct (get_edge_data G (PyStr (f x)) (PyStr (g x))).
    + intro n. rewrite Hn', Hn1. split.
      * intros [[H|[H|H]]|(y & Hy & H)].
        -- now left.
        -- right. exists x. split; [now left | now left].
        -- right. exists x. split; [now left | now right].
        -- right. exists y. split; [now right | assumption].
      * intros [H|(y & [<-|Hy] & H)].
        -- now left; left.
        -- left. right. exact H.
        -- right. exists y. now split.
    + congruence.
Qed.

(** On a graph that already holds every pair the loop visits, the loop
    returns the graph it was given. *)
Lemma loop_fixed (xs : list A) (G : DiGraph) :
  well_formed G ->
  (forall x, In x xs -> has_edge G (PyStr (f x)) (PyStr (g x)) = true) ->
  for_each xs (loop_body f g) G = Ok G.
Proof.
  intros Hwf. induction xs as [|x rest IH]; intro Hall; simpl.
  - reflexivity.
  - unfold loop_body at 1.
    rewrite (add_edge_present G _ _ Hwf (Hall x (or_introl eq_refl))). simpl.
    apply IH. intros y Hy. apply Hall. now right.
Qed.

(** Running the loop a second time on its own result changes nothing. *)
Lemma loop_twice (xs : list A) (G : DiGraph) :
  well_formed G ->
  exists G',
    for_each xs (loop_body f g) G = Ok G' /\ for_each xs (loop_body f g) G' = Ok G'.
Proof.
  intro Hwf. destruct (loop_ok xs G Hwf) as (G' & E & Hwf' & Hd & _).
  exists G'. split; [assumption|]. apply loop_fixed; [assumption|].
  intros x Hx. apply has_edge_data. rewrite Hd.
  destruct (get_edge_data G (PyStr (f x)) (PyStr (g x))) as [d|]; [eauto|].
  assert (Hadd : adds f g xs (PyStr (f x)) (PyStr (g x)) = true)
    by (apply adds_spec; eauto).
  rewrite Hadd. eauto.
Qed.
End Loop.

Lemma add_sequence_to_graph_loop (seq : string) (G : DiGraph) (k : Z) :
  add_sequence_to_graph seq G k =
  for_each (kmer_indices seq k)
    (loop_body (fun i => prefix_of (kmer_at seq k i))
               (fun i => suffix_of (kmer_at seq k i))) G.
Proof. reflexivity. Qed.

(** ** Substrings, ranges and slices *)

Lemma substring_length (s : string) : forall n m : nat,
  (n + m <= String.length s)%nat -> String.length (substring n m s) = m.
Proof.
  induction s as [|c s IH]; intros [|n] [|m] H; simpl in *;
    try reflexivity; try lia.
  - rewrite (IH 0%nat m); [reflexivity | simpl; lia].
  - apply IH. lia.
  - apply IH. lia.
Qed.

Lemma substring_substring (s : string) : forall n m a b : nat,
  (a + b <= m)%nat -> substring a b (substring n m s) = substring (n + a) b s.
Proof.
  induction s as [|c s IH]; intros n m a b H.
  - destruct n, m; simpl; destruct a, b; reflexivity.
  - destruct n as [|n]; simpl.
    + destruct m as [|m].
      * assert (a = 0%nat) by lia. assert (b = 0%nat) by lia. now subst.
      * destruct a as [|a]; simpl.
        -- destruct b as [|b]; [reflexivity|].
           f_equal. rewrite (IH 0%nat m 0%nat b); [reflexivity | lia].
        -- rewrite (IH 0%nat m a b); [reflexivity | lia].
    + apply IH. exact H.
Qed.

(** A string of length [m + 1] is its first [m] symbols followed by its
    last one. *)
Lemma substring_snoc (t : string) : forall m : nat,
  String.length t = S m ->
  exists c, String.get m t = Some c /\ t = (substring 0 m t ++ String c "")%string.
Proof.
  induction t as [|c t IH]; intros m H; [discriminate|].
  simpl in H. injection H as H. destruct m as [|m].
  - destruct t; [|discriminate]. exists c. now split.
  - destruct (IH m H) as (c' & Hget & Heq). exists c'. simpl.
    split; [assumption|]. now rewrite <- Heq.
Qed.

Lemma py_range_length (n : Z) : List.length (py_range n) = Z.to_nat n.
Proof. unfold py_range. now rewrite length_map, length_seq. Qed.

Lemma py_range_In (n i : Z) : In i (py_range n) <-> 0 <= i < n.
Proof.
  unfold py_range. rewrite in_map_iff. split.
  - intros (j & <- & Hj). apply in_seq in Hj. lia.
  - intro H. exists (Z.to_nat i). split; [lia|]. apply in_seq. lia.
Qed.

Lemma py_range_nth (n : Z) (j : nat) :
  (j < Z.to_nat n)%nat -> nth_error (py_range n) j = Some (Z.of_nat j).
Proof.
  intro H. unfold py_range. rewrite nth_error_map.
  rewrite (nth_error_nth' _ 0%nat) by now rewrite length_seq.
  simpl. now rewrite seq_nth.
Qed.

Lemma py_range_nonpos (n : Z) : n <= 0 -> py_range n = [].
Proof.
  intro H. unfold py_range. now replace (Z.to_nat n) with 0%nat by lia.
Qed.

(** Inside the sequence, [seq[i:i+k]] is the window of [k] symbols that
    starts at [i]. *)
Lemma kmer_at_window (s : string) (k i : Z) :
  0 <= i -> 0 <= k -> i + k <= len s ->
  kmer_at s k i = substring (Z.to_nat i) (Z.to_nat k) s /\
  len (kmer_at s k i) = k.
Proof.
  intros Hi Hk Hlen. unfold kmer_at, py_slice, slice_bounds, slice_index.
  assert (E1 : (i <? 0) = false) by lia. assert (E2 : (i + k <? 0) = false) by lia.
  rewrite E1, E2.
  replace (Z.min (i + k) (len s) - Z.min i (len s)) with k by lia.
  replace (Z.min i (len s)) with i by lia.
  split; [reflexivity|]. unfold len in *.
  rewrite substring_length; lia.
Qed.

(** [kmer[:-1]] drops the last symbol of a non-empty k-mer, and [kmer[1:]]
    its first. *)
Lemma prefix_of_window (t : string) :
  1 <= len t -> prefix_of t = substring 0 (Z.to_nat (len t - 1)) t.
Proof.
  intro H. unfold prefix_of, py_slice, slice_bounds, slice_index.
  change (-1 <? 0) with true. cbv iota.
  replace (Z.max 0 (-1 + len t) - 0) with (len t - 1) by lia. reflexivity.
Qed.

Lemma suffix_of_window (t : string) :
  1 <= len t -> suffix_of t = substring 1 (Z.to_nat (len t - 1)) t.
Proof.
  intro H. unfold suffix_of, py_slice, slice_bounds, slice_index.
  change (1 <? 0) with false. cbv iota.
  replace (Z.min 1 (len t)) with 1 by lia. reflexivity.
Qed.

Lemma kmer_indices_In (s : string) (k i : Z) :
  In i (kmer_indices s k) <-> 0 <= i /\ i + k <= len s.
Proof. unfold kmer_indices. rewrite py_range_In. lia. Qed.

(** Everything the loop body computes from one window inside the sequence. *)
Lemma kmer_edge_window (s : string) (k i : Z) :
  1 <= k -> 0 <= i -> i + k <= len s ->
  let kmer := kmer_at s k i in
  kmer = substring (Z.to_nat i) (Z.to_nat k) s /\
  String.length kmer = Z.to_nat k /\
  prefix_of kmer = substring 0 (Z.to_nat (k - 1)) kmer /\
  suffix_of kmer = substring 1 (Z.to_nat (k - 1)) kmer /\
  prefix_of kmer = substring (Z.to_nat i) (Z.to_nat (k - 1)) s /\
  suffix_of kmer = substring (S (Z.to_nat i)) (Z.to_nat (k - 1)) s /\
  String.length (prefix_of kmer) = Z.to_nat (k - 1) /\
  String.length (suffix_of kmer) = Z.to_nat (k - 1) /\
  exists c, String.get (Z.to_nat (k - 1)) kmer = Some c /\
            (prefix_of kmer ++ String c "")%string = kmer.
Proof.
  intros Hk Hi Hlen kmer.
  destruct (kmer_at_window s k i) as [Hw Hl]; try lia.
  fold kmer in Hw, Hl.
  assert (Hn : String.length kmer = Z.to_nat k) by (unfold len in Hl; lia).
  assert (Hp : prefix_of kmer = substring 0 (Z.to_nat (k - 1)) kmer).
  { rewrite prefix_of_window by lia. now rewrite Hl. }
  assert (Hs : suffix_of kmer = substring 1 (Z.to_nat (k - 1)) kmer).
  { rewrite suffix_of_window by lia. now rewrite Hl. }
  split; [assumption|]. split; [assumption|].
  split; [assumption|]. split; [assumption|].
  assert (Hp' : prefix_of kmer = substring (Z.to_nat i) (Z.to_nat (k - 1)) s).
  { rewrite Hp, Hw, substring_substring by lia. f_equal. lia. }
  assert (Hs' : suffix_of kmer = substring (S (Z.to_nat i)) (Z.to_nat (k - 1)) s).
  { rewrite Hs, Hw, substring_substring by lia. f_equal. lia. }
  split; [assumption|]. split; [assumption|].
  unfold len in Hlen.
  split; [rewrite Hp'; apply substring_length; lia|].
  split; [rewrite Hs'; apply substring_length; lia|].
  destruct (substring_snoc kmer (Z.to_nat (k - 1))) as (c & Hget & Heq); [lia|].
  exists c. split; [assumption|]. rewrite Hp. now symmetry.
Qed.

Lemma kmers_length (s : string) (k : Z) :
  List.length (kmers s k) = Z.to_nat (len s - k + 1).
Proof. unfold kmers, kmer_indices. now rewrite length_map, py_range_length. Qed.

Lemma kmers_nth (s : string) (k : Z) (i : nat) :
  (i < Z.to_nat (len s - k + 1))%nat ->
  nth_error (kmers s k) i = Some (kmer_at s k (Z.of_nat i)).
Proof.
  intro H. unfold kmers, kmer_indices.
  now rewrite nth_error_map, py_range_nth.
Qed.

(** ** Ingestion returns *)

Lemma get_edge_data_new (a b : pyobj) : get_edge_data DiGraph_new a b = None.
Proof. reflexivity. Qed.

(** On a consistent graph [add_sequence_to_graph] returns, whatever the
    sequence and whatever [k]; the result is consistent, holds the edges of
    the start graph with their data and one edge with data [{}] for every
    other pair the loop visits. *)
Lemma add_sequence_to_graph_ok (seq : string) (G : DiGraph) (k : Z) :
  well_formed G ->
  exists G',
    add_sequence_to_graph seq G k = Ok G' /\ well_formed G' /\
    (forall a b,
        get_edge_data G' a b =
        match get_edge_data G a b with
        | Some d => Some d
        | None =>
            if adds (fun i => prefix_of (kmer_at seq k i))
                    (fun i => suffix_of (kmer_at seq k i))
                    (kmer_indices seq k) a b
            then Some [] else None
        end) /\
    (forall n, In n (nodes G') <->
               In n (nodes G) \/
               exists i, In i (kmer_indices seq k) /\
                         (n = PyStr (prefix_of (kmer_at seq k i)) \/
                          n = PyStr (suffix_of (kmer_at seq k i)))) /\
    graph G' = graph G.
Proof. intro Hwf. rewrite add_sequence_to_graph_loop. now apply loop_ok. Qed.

Lemma add_sequence_to_graph_twice (seq : string) (G : DiGraph) (k : Z) :
  well_formed G ->
  exists G',
    add_sequence_to_graph seq G k = Ok G' /\
    add_sequence_to_graph seq G' k = Ok G'.
Proof. intro Hwf. rewrite !add_sequence_to_graph_loop. now apply loop_twice. Qed.

Lemma reachable_well_formed (G : DiGraph) : reachable G -> well_formed G.
Proof.
  induction 1 as [|G G' seq k _ IH E].
  - exact well_formed_new.
  - destruct (add_sequence_to_graph_ok seq G k IH) as (G1 & E1 & Hwf1 & _).
    congruence.
Qed.

(** ** The edge list *)

Lemma dict_get_In_pair {V : Type} (d : dict V) (k : pyobj) (v : V) :
  NoDup (dict_keys d) -> (In (k, v) d <-> dict_get d k = Some v).
Proof.
  induction d as [|[k0 v0] d IH]; simpl; intro Hnd.
  - split; [tauto | discriminate].
  - inversion Hnd as [|? ? Hnotin Hnd']; subst.
    destruct (pyobj_eqb k0 k) eqn:E.
    + apply pyobj_eqb_eq in E. subst k0. split.
      * intros [H|H]; [now injection H as -> |].
        elim Hnotin. change k with (fst (k, v)). now apply in_map.
      * intro H. injection H as ->. now left.
    + apply pyobj_eqb_neq in E. rewrite <- (IH Hnd'). split.
      * intros [H|H]; [injection H as -> _; contradiction | assumption].
      * now right.
Qed.

Lemma In_edges (G : DiGraph) (u v : pyobj) :
  In (u, v) (edges G) <->
  exists nbrs, In (u, nbrs) (_succ G) /\ In v (dict_keys nbrs).
Proof.
  unfold edges. rewrite in_flat_map. split.
  - intros ([u' nbrs] & Hin & Hv). apply in_map_iff in Hv.
    destruct Hv as (w & E & Hw). injection E as -> ->. eauto.
  - intros (nbrs & Hin & Hv). exists (u, nbrs). split; [assumption|].
    apply in_map_iff. eauto.
Qed.

(** In a consistent graph the edge list and [has_edge] agree. *)
Lemma In_edges_has_edge (G : DiGraph) (u v : pyobj) :
  well_formed G -> (In (u, v) (edges G) <-> has_edge G u v = true).
Proof.
  intros [Hs Hp Hn Hm]. rewrite In_edges, has_edge_data.
  unfold get_edge_data, get2. rewrite <- Hs in Hn. split.
  - intros (nbrs & Hin & Hv).
    apply (dict_get_In_pair _ _ _ Hn) in Hin. rewrite Hin.
    apply dict_contains_In in Hv. unfold dict_contains in Hv.
    destruct (dict_get nbrs v) as [d|]; [eauto | discriminate].
  - intros (d & Hd). destruct (dict_get (_succ G) u) as [nbrs|] eqn:E;
      [|discriminate].
    exists nbrs. split.
    + now apply (dict_get_In_pair _ _ _ Hn).
    + eapply dict_get_In. eassumption.
Qed.

(** ** Windows of one symbol *)

Lemma for_each_ext {A S : Type} (xs : list A) (body1 body2 : A -> S -> result S) :
  (forall x s, In x xs -> body1 x s = body2 x s) ->
  forall s, for_each xs body1 s = for_each xs body2 s.
Proof.
  induction xs as [|x rest IH]; intros H s; simpl; [reflexivity|].
  rewrite (H x s) by now left.
  destruct (body2 x s) as [s'|e]; simpl; [|reflexivity].
  apply IH. intros y t Hy. apply H. now right.
Qed.

Lemma length_zero_empty (t : string) : String.length t = 0%nat -> t = "".
Proof. destruct t; [reflexivity | discriminate]. Qed.

(** With [k = 1] every window inside the sequence has the empty string as
    its prefix and as its suffix. *)
Lemma unit_window_endpoints (s : string) (i : Z) :
  In i (kmer_indices s 1) ->
  prefix_of (kmer_at s 1 i) = "" /\ suffix_of (kmer_at s 1 i) = "".
Proof.
  intro Hi. apply kmer_indices_In in Hi.
  destruct (kmer_edge_window s 1 i) as (_ & _ & _ & _ & _ & _ & Hp & Hs & _);
    try lia.
  split; now apply length_zero_empty.
Qed.

(** On a fresh graph, the first iteration adds the empty string with its
    loop and the others change nothing. *)
Lemma unit_window_fresh (s : string) :
  s <> "" ->
  add_sequence_to_graph s DiGraph_new 1 =
  Ok (mkDiGraph [] [(PyStr "", [])] [(PyStr "", [(PyStr "", [])])]
                [(PyStr "", [(PyStr "", [])])]).
Proof.
  intro Hne.
  rewrite add_sequence_to_graph_loop.
  rewrite (for_each_ext _ _ (loop_body (fun _ => "") (fun _ => ""))).
  2:{ intros i G Hi. unfold loop_body.
      destruct (unit_window_endpoints s i Hi) as [-> ->]. reflexivity. }
  assert (Hidx : exists rest, kmer_indices s 1 = 0 :: rest).
  { unfold kmer_indices, py_range, len. destruct s as [|c s]; [contradiction|].
    simpl String.length.
    replace (Z.to_nat (Z.of_nat (S (String.length s)) - 1 + 1))
      with (S (String.length s)) by lia.
    simpl. eauto. }
  destruct Hidx as [rest Hrest]. rewrite Hrest.
  destruct (add_edge_ok DiGraph_new (PyStr "") (PyStr "") well_formed_new)
    as (G' & E & Hwf & _); try discriminate.
  assert (HG : G' = mkDiGraph [] [(PyStr "", [])] [(PyStr "", [(PyStr "", [])])]
                              [(PyStr "", [(PyStr "", [])])])
    by (vm_compute in E; now injection E as <-).
  subst G'. cbn [for_each]. unfold loop_body at 1. rewrite E. cbn [bind].
  apply loop_fixed; [assumption|]. intros. reflexivity.
Qed.

(** ** Graphs built from a file *)

Lemma build_lines_reachable (k : Z) (lines : list string) :
  forall G seq,
    reachable G ->
    exists G' seq',
      for_each lines (build_line k) (G, seq) = Ok (G', seq') /\ reachable G'.
Proof.
  induction lines as [|line rest IH]; intros G seq HG; simpl.
  - eauto.
  - destruct (startswith_gt line).
    + destruct (negb (seq =? "")%string).
      * destruct (add_sequence_to_graph_ok seq G k (reachable_well_formed G HG))
          as (G1 & E1 & _).
        rewrite E1. simpl. apply IH. eapply reachable_ingest; eassumption.
      * simpl. now apply IH.
    + simpl. now apply IH.
Qed.

(** [build_de_bruijn_graph] returns on every list of lines and every [k],
    and the graph it returns is one of the reachable graphs. *)
Lemma build_de_bruijn_graph_reachable (lines : list string) (k : Z) :
  exists G, build_de_bruijn_graph lines k = Ok G /\ reachable G.
Proof.
  unfold build_de_bruijn_graph.
  destruct (build_lines_reachable k lines DiGraph_new "" reachable_new)
    as (G & seq & E & HG).
  rewrite E. simpl. destruct (negb (seq =? "")%string).
  - destruct (add_sequence_to_graph_ok seq G k (reachable_well_formed G HG))
      as (G1 & E1 & _).
    exists G1. split; [assumption|]. eapply reachable_ingest; eassumption.
  - eauto.
Qed.

(** ** Sub-graphs *)

Lemma list_slice_prefix {A : Type} (xs : list A) (n : Z) :
  0 <= n -> list_slice xs None (Some n) = firstn (Z.to_nat n) xs.
Proof.
  intro Hn. unfold list_slice, slice_bounds, slice_index.
  assert (E : (n <? 0) = false) by lia. rewrite E. simpl skipn.
  rewrite Z.sub_0_r.
  destruct (Z.le_gt_cases n (Z.of_nat (List.length xs))) as [H|H].
  - now rewrite Z.min_l.
  - rewrite Z.min_r by lia. rewrite Nat2Z.id.
    now rewrite !firstn_all2 by lia.
Qed.

Lemma dict_filter_none {V : Type} (d : dict V) : dict_filter (mem []) d = [].
Proof. induction d as [|[k v] d IH]; [reflexivity | exact IH]. Qed.

(** Filtering a dictionary by membership among its first [m] keys keeps its
    first [m] entries. *)
Lemma dict_filter_prefix {V : Type} (d : dict V) : forall m : nat,
  NoDup (dict_keys d) ->
  dict_filter (mem (firstn m (dict_keys d))) d = firstn m d.
Proof.
  induction d as [|[k v] d IH]; intros m Hnd.
  - now destruct m.
  - inversion Hnd as [|? ? Hnotin Hnd']; subst.
    destruct m as [|m]; simpl.
    + apply (dict_filter_none ((k, v) :: d)).
    + rewrite pyobj_eqb_refl. simpl. f_equal.
      rewrite <- (IH m Hnd'). unfold dict_filter.
      apply filter_ext_in. intros [k' v'] Hin. simpl.
      destruct (pyobj_eqb k' k) eqn:E; [|reflexivity].
      apply pyobj_eqb_eq in E. subst k'. elim Hnotin.
      change k with (fst (k, v')). now apply in_map.
Qed.

Lemma In_edges_subgraph (G : DiGraph) (nbunch : list pyobj) (u v : pyobj) :
  In (u, v) (edges (subgraph G nbunch)) <->
  In (u, v) (edges G) /\ In u nbunch /\ In v nbunch.
Proof.
  rewrite !In_edges. unfold subgraph. simpl. split.
  - intros (nbrs & Hin & Hv). apply in_map_iff in Hin.
    destruct Hin as ([u' nbrs'] & E & Hin). injection E as -> <-.
    apply filter_In in Hin. destruct Hin as [Hin Hu]. simpl in Hu.
    rewrite dict_keys_filter in Hv. apply filter_In in Hv.
    destruct Hv as [Hv Hv']. apply mem_In in Hu, Hv'.
    split; [eauto | auto].
  - intros ((nbrs & Hin & Hv) & Hu & Hv').
    exists (dict_filter (mem nbunch) nbrs). split.
    + apply in_map_iff. exists (u, nbrs). split; [reflexivity|].
      apply filter_In. split; [assumption|]. now apply mem_In.
    + rewrite dict_keys_filter. apply filter_In. split; [assumption|].
      now apply mem_In.
Qed.

Lemma nodes_subgraph_prefix (G : DiGraph) (m : nat) :
  well_formed G ->
  _node (subgraph G (firstn m (nodes G))) = firstn m (_node G).
Proof.
  intros [_ _ Hn _]. unfold subgraph, nodes. simpl.
  now apply dict_filter_prefix.
Qed.

Lemma no_member_nil {A : Type} (l : list A) : (forall x, ~ In x l) -> l = [].
Proof. destruct l as [|a l]; [reflexivity|]. intro H. elim (H a). now left. Qed.

Lemma dict_keys_nil {V : Type} (d : dict V) : dict_keys d = [] -> d = [].
Proof. destruct d; [reflexivity | discriminate]. Qed.

(** ** The persistence codec *)

Lemma byte_of_N_to_N (n : N) : (n < 256)%N -> Byte.to_N (byte_of_N n) = n.
Proof.
  intro H. unfold byte_of_N. destruct (Byte.of_N n) as [b|] eqn:E.
  - now apply Byte.to_of_N.
  - apply Byte.of_N_None_iff in E. lia.
Qed.

(** A field can be read back from the front of any stream it was written
    at the front of. *)
Lemma decode_encode_varint_groups (more : nat) : forall (n : N) (rest : list byte),
  (n < 128 * 2 ^ N.of_nat more)%N ->
  decode_varint (encode_varint_groups more n ++ rest) = Some (n, rest).
Proof.
  induction more as [|more IH]; intros n rest Hn.
  - change (2 ^ N.of_nat 0)%N with 1%N in Hn.
    cbn [encode_varint_groups app decode_varint].
    rewrite N.mod_small by lia. rewrite byte_of_N_to_N by lia.
    assert (E : (n <? 128)%N = true) by (apply N.ltb_lt; lia).
    now rewrite E.
  - cbn [encode_varint_groups]. destruct (n <? 128)%N eqn:E.
    + cbn [app decode_varint]. rewrite byte_of_N_to_N, E; [reflexivity|].
      apply N.ltb_lt in E. lia.
    + apply N.ltb_ge in E. cbn [app decode_varint].
      assert (Hmod : (n mod 128 < 128)%N) by now apply N.mod_lt.
      pose proof (N.div_mod n 128 ltac:(discriminate)) as Hdiv.
      assert (Hq : (n / 128 < 128 * 2 ^ N.of_nat more)%N).
      { rewrite Nat2N.inj_succ, N.pow_succ_r' in Hn.
        apply N.Div0.div_lt_upper_bound.
        remember (2 ^ N.of_nat more)%N as p. lia. }
      remember (n mod 128)%N as r. remember (n / 128)%N as q.
      rewrite byte_of_N_to_N by lia.
      assert (E' : (128 + r <? 128)%N = false) by (apply N.ltb_ge; lia).
      rewrite E', IH by assumption.
      f_equal. f_equal. lia.
Qed.

Lemma decode_encode_varint (n : N) (rest : list byte) :
  decode_varint (encode_varint n ++ rest) = Some (n, rest).
Proof.
  unfold encode_varint. apply decode_encode_varint_groups.
  rewrite N2Nat.id. pose proof (N.size_gt n) as Hs.
  remember (2 ^ N.size n)%N as p. lia.
Qed.

Lemma length_list_byte_of_string (s : string) :
  List.length (list_byte_of_string s) = String.length s.
Proof.
  induction s as [|c s IH]; [reflexivity|].
  change (list_byte_of_string (String c s))
    with (byte_of_ascii c :: list_byte_of_string s).
  simpl. now rewrite IH.
Qed.

Lemma decode_encode_string (s : string) (rest : list byte) :
  decode_string (encode_string s ++ rest) = Some (s, rest).
Proof.
  unfold decode_string, encode_string.
  rewrite <- app_assoc, decode_encode_varint, Nat2N.id.
  pose proof (length_list_byte_of_string s) as Hl.
  assert (E : (List.length (list_byte_of_string s ++ rest) <? String.length s)%nat
              = false).
  { apply Nat.ltb_ge. rewrite length_app. lia. }
  rewrite E, <- Hl, firstn_app, skipn_app, firstn_all, skipn_all, Nat.sub_diag.
  simpl. now rewrite app_nil_r, string_of_list_byte_of_string.
Qed.

Lemma decode_table_flat_map {A : Type} (enc : A -> list byte)
  (dec : list byte -> option (A * list byte)) (l : list A) :
  (forall a rest, In a l -> dec (enc a ++ rest) = Some (a, rest)) ->
  forall rest,
    decode_table dec (List.length l) (flat_map enc l ++ rest) = Some (l, rest).
Proof.
  induction l as [|a l IH]; intros H rest; simpl; [reflexivity|].
  rewrite <- app_assoc, (H a) by now left.
  rewrite IH; [reflexivity|]. intros b r Hb. apply H. now right.
Qed.

Lemma node_index_nth (u : string) (table : list string) :
  In u table -> nth_error table (node_index u table) = Some u.
Proof.
  induction table as [|w table IH]; simpl; [tauto|].
  destruct (String.eqb w u) eqn:E.
  - apply String.eqb_eq in E. now subst.
  - apply String.eqb_neq in E. intros [H|H]; [contradiction | now apply IH].
Qed.

Lemma decode_encode_edge (table : list string) (u v : string) (m : N)
  (rest : list byte) :
  In u table -> In v table ->
  decode_edge table (encode_edge table (u, v, m) ++ rest) = Some (u, v, m, rest).
Proof.
  intros Hu Hv. unfold decode_edge, encode_edge.
  rewrite <- !app_assoc, !decode_encode_varint, !Nat2N.id.
  now rewrite (node_index_nth u table Hu), (node_index_nth v table Hv).
Qed.

Lemma stored_closedb_closed (G : StoredGraph) :
  stored_closedb G = true -> stored_closed G.
Proof.
  unfold stored_closedb, stored_closed. rewrite forallb_forall.
  intros H u v m Hin. specialize (H _ Hin). simpl in H.
  apply andb_true_iff in H. destruct H as [Hu Hv].
  apply existsb_exists in Hu, Hv.
  destruct Hu as (x & Hx & Ex), Hv as (y & Hy & Ey).
  apply String.eqb_eq in Ex, Ey. now subst.
Qed.

(** * The claims *)

(** C3.  For every sequence [s] and every [k >= 2] the loop extracts
    [max(0, len(s) - k + 1)] k-mers; the k-mer at position [i] is the window
    of exactly [k] symbols of [s] that starts at [i], so the k-mers come in
    left-to-right order; and a sequence shorter than [k] yields no k-mer and
    leaves any graph as it was, without raising. *)
Theorem kmers_are_the_windows (s : string) (k : Z) :
  2 <= k ->
  List.length (kmers s k) = Z.to_nat (Z.max 0 (len s - k + 1)) /\
  (forall i : nat,
      (i < Z.to_nat (Z.max 0 (len s - k + 1)))%nat ->
      nth_error (kmers s k) i = Some (substring i (Z.to_nat k) s) /\
      String.length (substring i (Z.to_nat k) s) = Z.to_nat k) /\
  (len s < k ->
   kmers s k = [] /\ forall G, add_sequence_to_graph s G k = Ok G).
Proof.
  intro Hk. split; [|split].
  - rewrite kmers_length. lia.
  - intros i Hi.
    destruct (kmer_edge_window s k (Z.of_nat i)) as (Hw & Hl & _); try lia.
    rewrite Nat2Z.id in Hw. rewrite <- Hw. split; [|assumption].
    apply kmers_nth. lia.
  - intro Hshort.
    assert (E : kmer_indices s k = []) by (apply py_range_nonpos; lia).
    split.
    + unfold kmers. now rewrite E.
    + intro G. unfold add_sequence_to_graph. now rewrite E.
Qed.

Lemma kmers_are_the_windows_witness :
  List.length (kmers "GATTACA" 3) = 5%nat /\
  nth_error (kmers "GATTACA" 3) 4 = Some "ACA" /\
  kmers "GA" 3 = [].
Proof.
  destruct (kmers_are_the_windows "GATTACA" 3) as (Hn & Hi & _); [lia|].
  destruct (kmers_are_the_windows "GA" 3) as (_ & _ & Hs); [lia|].
  split; [exact Hn|]. split.
  - apply (Hi 4%nat). vm_compute. lia.
  - apply Hs. reflexivity.
Defined.

(** C4.  For every sequence [s], every [k >= 2] and every reachable graph
    (the fresh graph among them), ingesting [s] returns, and every edge
    [(from, to)] the ingestion produces comes from the k-mer at some position
    [i] of [s]: [from] is that k-mer without its last symbol and [to] is
    that k-mer without its first symbol; both are substrings of [s] of
    length [k - 1], at positions [i] and [i + 1]; and [from] followed by the
    last symbol of the k-mer is the k-mer. *)
Theorem edges_come_from_kmers (s : string) (G : DiGraph) (k : Z) :
  2 <= k -> reachable G ->
  exists G',
    add_sequence_to_graph s G k = Ok G' /\
    forall u v, has_edge G' u v = true -> has_edge G u v = false ->
      exists (i : nat) (kmer from to : string) (c : ascii),
        nth_error (kmers s k) i = Some kmer /\
        kmer = substring i (Z.to_nat k) s /\
        String.length kmer = Z.to_nat k /\
        u = PyStr from /\ v = PyStr to /\
        from = substring 0 (Z.to_nat (k - 1)) kmer /\
        to = substring 1 (Z.to_nat (k - 1)) kmer /\
        from = substring i (Z.to_nat (k - 1)) s /\
        to = substring (S i) (Z.to_nat (k - 1)) s /\
        String.length from = Z.to_nat (k - 1) /\
        String.length to = Z.to_nat (k - 1) /\
        String.get (Z.to_nat (k - 1)) kmer = Some c /\
        (from ++ String c "")%string = kmer.
Proof.
  intros Hk HG.
  destruct (add_sequence_to_graph_ok s G k (reachable_well_formed G HG))
    as (G' & E & _ & Hd & _).
  exists G'. split; [assumption|]. intros u v He Hnew.
  apply has_edge_data in He. destruct He as [d Hd'].
  rewrite Hd in Hd'. unfold has_edge in Hnew.
  destruct (get_edge_data G u v); [discriminate|].
  destruct (adds _ _ _ u v) eqn:Ha; [|discriminate].
  apply adds_spec in Ha. destruct Ha as (i & Hi & -> & ->).
  apply kmer_indices_In in Hi. destruct Hi as [Hi0 Hi1].
  destruct (kmer_edge_window s k i)
    as (Hw & Hl & Hp & Hs & Hp' & Hs' & Hlp & Hls & c & Hget & Hcat); try lia.
  exists (Z.to_nat i), (kmer_at s k i), (prefix_of (kmer_at s k i)),
    (suffix_of (kmer_at s k i)), c.
  split.
  { rewrite kmers_nth by lia. now rewrite Z2Nat.id. }
  repeat (split; [assumption || reflexivity|]). assumption.
Qed.

Lemma edges_come_from_kmers_witness :
  exists G',
    add_sequence_to_graph "GATTACA" DiGraph_new 3 = Ok G' /\
    forall u v, has_edge G' u v = true -> has_edge DiGraph_new u v = false ->
      exists (i : nat) (kmer from to : string) (c : ascii),
        nth_error (kmers "GATTACA" 3) i = Some kmer /\
        kmer = substring i 3 "GATTACA" /\
        String.length kmer = 3%nat /\
        u = PyStr from /\ v = PyStr to /\
        from = substring 0 2 kmer /\
        to = substring 1 2 kmer /\
        from = substring i 2 "GATTACA" /\
        to = substring (S i) 2 "GATTACA" /\
        String.length from = 2%nat /\
        String.length to = 2%nat /\
        String.get 2 kmer = Some c /\
        (from ++ String c "")%string = kmer.
Proof.
  apply (edges_come_from_kmers "GATTACA" DiGraph_new 3); [lia | constructor].
Defined.

(** C9.  For every sequence [s] and every [k >= 2], ingesting [s] into a
    fresh graph returns a graph [G1], and ingesting [s] again into [G1]
    returns [G1] itself: the same [graph], [_node], [_succ] and [_pred].
    The reason is that [add_edge] on a pair that is already an edge of [G1]
    returns [G1], and that the data dictionary of every edge is [{}]: no
    counter is kept. *)
Theorem ingest_twice_is_ingest_once (s : string) (k : Z) :
  2 <= k ->
  exists G1,
    add_sequence_to_graph s DiGraph_new k = Ok G1 /\
    add_sequence_to_graph s G1 k = Ok G1 /\
    forall u v, has_edge G1 u v = true ->
      add_edge G1 u v [] = Ok G1 /\ get_edge_data G1 u v = Some [].
Proof.
  intros _.
  destruct (add_sequence_to_graph_ok s DiGraph_new k well_formed_new)
    as (G1 & E1 & Hwf1 & Hd & _).
  destruct (add_sequence_to_graph_twice s DiGraph_new k well_formed_new)
    as (G' & E' & E2).
  assert (G' = G1) by congruence. subst G'.
  exists G1. split; [assumption|]. split; [assumption|].
  intros u v He. split.
  - now apply add_edge_present.
  - apply has_edge_data in He. destruct He as [d Hd'].
    rewrite Hd' . rewrite Hd, get_edge_data_new in Hd'.
    destruct (adds _ _ _ u v); congruence.
Qed.

Lemma ingest_twice_is_ingest_once_witness :
  exists G1,
    add_sequence_to_graph "ACGTACGT" DiGraph_new 3 = Ok G1 /\
    add_sequence_to_graph "ACGTACGT" G1 3 = Ok G1 /\
    forall u v, has_edge G1 u v = true ->
      add_edge G1 u v [] = Ok G1 /\ get_edge_data G1 u v = Some [].
Proof. apply (ingest_twice_is_ingest_once "ACGTACGT" 3). lia. Defined.

(** C1, as the program behaves.  For every sequence [s] and every [k >= 2],
    ingesting [s] twice into a fresh graph leaves the nodes, the distinct
    edges and the count of every edge as they were after the first
    ingestion: each edge is held once ([number_of_edges(u, v)] is 1) with
    the data [{}].  [add_edge] on a pair that is already an edge returns a
    graph with the same nodes and the same edges, the count of the pair
    still 1. *)
Theorem ingest_twice_keeps_counts (s : string) (k : Z) :
  2 <= k ->
  exists G1 G2,
    add_sequence_to_graph s DiGraph_new k = Ok G1 /\
    add_sequence_to_graph s G1 k = Ok G2 /\
    nodes G2 = nodes G1 /\ edges G2 = edges G1 /\
    (forall u v, In (u, v) (edges G1) ->
       number_of_edges_between G1 u v = 1 /\
       number_of_edges_between G2 u v = 1 /\
       get_edge_data G2 u v = Some [] /\
       exists G', add_edge G1 u v [] = Ok G' /\
                  nodes G' = nodes G1 /\ edges G' = edges G1 /\
                  number_of_edges_between G' u v = 1).
Proof.
  intros _.
  destruct (add_sequence_to_graph_ok s DiGraph_new k well_formed_new)
    as (G1 & E1 & Hwf1 & Hd & _).
  destruct (add_sequence_to_graph_twice s DiGraph_new k well_formed_new)
    as (G' & E' & E2).
  assert (G' = G1) by congruence. subst G'.
  exists G1, G1. split; [assumption|]. split; [assumption|].
  split; [reflexivity|]. split; [reflexivity|].
  intros u v Hin. apply (In_edges_has_edge G1 u v Hwf1) in Hin.
  assert (Hcount : number_of_edges_between G1 u v = 1)
    by (unfold number_of_edges_between; now rewrite Hin).
  split; [assumption|]. split; [assumption|]. split.
  - apply has_edge_data in Hin. destruct Hin as [d Hd'].
    rewrite Hd'. rewrite Hd, get_edge_data_new in Hd'.
    destruct (adds _ _ _ u v); congruence.
  - exists G1. split; [now apply add_edge_present|]. now repeat split.
Qed.

Lemma ingest_twice_keeps_counts_witness :
  exists G1 G2,
    add_sequence_to_graph "ACGTACGT" DiGraph_new 3 = Ok G1 /\
    add_sequence_to_graph "ACGTACGT" G1 3 = Ok G2 /\
    nodes G2 = nodes G1 /\ edges G2 = edges G1 /\
    (forall u v, In (u, v) (edges G1) ->
       number_of_edges_between G1 u v = 1 /\
       number_of_edges_between G2 u v = 1 /\
       get_edge_data G2 u v = Some [] /\
       exists G', add_edge G1 u v [] = Ok G' /\
                  nodes G' = nodes G1 /\ edges G' = edges G1 /\
                  number_of_edges_between G' u v = 1).
Proof. apply (ingest_twice_keeps_counts "ACGTACGT" 3). lia. Defined.

(** C1, as stated, fails: after ingesting ["ACGT"] twice with [k = 2] the
    edge from ["A"] to ["C"] is counted once, as after the first ingestion,
    not twice, and its data dictionary holds no counter. *)
Lemma ingest_twice_does_not_double :
  exists G1 G2,
    add_sequence_to_graph "ACGT" DiGraph_new 2 = Ok G1 /\
    add_sequence_to_graph "ACGT" G1 2 = Ok G2 /\
    In (PyStr "A", PyStr "C") (edges G1) /\
    number_of_edges_between G1 (PyStr "A") (PyStr "C") = 1 /\
    number_of_edges_between G2 (PyStr "A") (PyStr "C")
      <> 2 * number_of_edges_between G1 (PyStr "A") (PyStr "C") /\
    get_edge_data G2 (PyStr "A") (PyStr "C") = Some [].
Proof.
  eexists. eexists. split; [vm_compute; reflexivity|].
  split; [vm_compute; reflexivity|].
  split; [simpl; auto|]. split; [reflexivity|].
  split; [vm_compute; discriminate | reflexivity].
Qed.

(** C7, as the program behaves.  Ingesting ["ACGTACGT"] with [k = 3] into a
    fresh graph extracts the k-mers ACG, CGT, GTA, TAC, ACG, CGT in that
    order and returns a graph with exactly the nodes AC, CG, GT, TA and
    exactly the four edges AC->CG, CG->GT, GT->TA, TA->AC; each edge is held
    once, with the data [{}]. *)
Theorem scenario_ACGTACGT :
  kmers "ACGTACGT" 3 = ["ACG"; "CGT"; "GTA"; "TAC"; "ACG"; "CGT"] /\
  exists G,
    add_sequence_to_graph "ACGTACGT" DiGraph_new 3 = Ok G /\
    nodes G = [PyStr "AC"; PyStr "CG"; PyStr "GT"; PyStr "TA"] /\
    edges G = [(PyStr "AC", PyStr "CG"); (PyStr "CG", PyStr "GT");
               (PyStr "GT", PyStr "TA"); (PyStr "TA", PyStr "AC")] /\
    number_of_nodes G = 4 /\ number_of_edges G = 4 /\
    Forall (fun e => number_of_edges_between G (fst e) (snd e) = 1 /\
                     get_edge_data G (fst e) (snd e) = Some [])
           (edges G).
Proof.
  split; [reflexivity|]. eexists. split; [vm_compute; reflexivity|].
  repeat split. repeat constructor.
Qed.

(** C7, as stated, fails: the edges AC->CG and CG->GT are each counted once,
    not twice, although their k-mers occur twice in the sequence. *)
Lemma scenario_ACGTACGT_counts_once :
  exists G,
    add_sequence_to_graph "ACGTACGT" DiGraph_new 3 = Ok G /\
    number_of_edges_between G (PyStr "AC") (PyStr "CG") <> 2 /\
    number_of_edges_between G (PyStr "CG") (PyStr "GT") <> 2 /\
    get_edge_data G (PyStr "AC") (PyStr "CG") = Some [].
Proof.
  eexists. split; [vm_compute; reflexivity|].
  split; [vm_compute; discriminate|].
  split; [vm_compute; discriminate | reflexivity].
Qed.

(** C10.  With [k = 1], ingesting a non-empty sequence into a reachable
    graph returns; it adds the empty string to the nodes and the loop from
    the empty string to itself to the edges, and nothing else.  On a fresh
    graph the result is the graph whose only node is the empty string and
    whose only edge is that loop. *)
Theorem unit_window_self_loop (s : string) (G : DiGraph) :
  s <> "" -> reachable G ->
  exists G',
    add_sequence_to_graph s G 1 = Ok G' /\
    (forall n, In n (nodes G') <-> In n (nodes G) \/ n = PyStr "") /\
    (forall u v, has_edge G' u v = true <->
                 has_edge G u v = true \/ (u = PyStr "" /\ v = PyStr "")) /\
    (G = DiGraph_new ->
     nodes G' = [PyStr ""] /\ edges G' = [(PyStr "", PyStr "")] /\
     G' = mkDiGraph [] [(PyStr "", [])]
                    [(PyStr "", [(PyStr "", [])])]
                    [(PyStr "", [(PyStr "", [])])]).
Proof.
  intros Hne HG.
  destruct (add_sequence_to_graph_ok s G 1 (reachable_well_formed G HG))
    as (G' & E & _ & Hd & Hn & _).
  assert (H0 : In 0 (kmer_indices s 1)).
  { apply kmer_indices_In. unfold len. destruct s; [contradiction|].
    simpl String.length. lia. }
  exists G'. split; [assumption|]. split; [|split].
  - intro n. rewrite Hn. split.
    + intros [H|(i & Hi & H)]; [now left|]. right.
      destruct (unit_window_endpoints s i Hi) as [Ep Es].
      rewrite Ep, Es in H. tauto.
    + intros [H| ->]; [now left|]. right. exists 0. split; [assumption|].
      destruct (unit_window_endpoints s 0 H0) as [-> _]. now left.
  - intros u v. rewrite !has_edge_data. split.
    + intros [d Hd']. rewrite Hd in Hd'.
      destruct (get_edge_data G u v) as [d0|]; [left; eauto|]. right.
      destruct (adds _ _ _ u v) eqn:Ha; [|discriminate].
      apply adds_spec in Ha. destruct Ha as (i & Hi & -> & ->).
      now destruct (unit_window_endpoints s i Hi) as [-> ->].
    + intros [[d Hd']|[-> ->]].
      * exists d. now rewrite Hd, Hd'.
      * rewrite Hd. destruct (get_edge_data G _ _) as [d|]; [eauto|].
        assert (Ha : adds (fun i => prefix_of (kmer_at s 1 i))
                          (fun i => suffix_of (kmer_at s 1 i))
                          (kmer_indices s 1) (PyStr "") (PyStr "") = true).
        { apply adds_spec. exists 0. split; [assumption|].
          now destruct (unit_window_endpoints s 0 H0) as [-> ->]. }
        rewrite Ha. eauto.
  - intros ->. rewrite (unit_window_fresh s Hne) in E. injection E as <-.
    now repeat split.
Qed.

Lemma unit_window_self_loop_witness :
  exists G',
    add_sequence_to_graph "GATTACA" DiGraph_new 1 = Ok G' /\
    (forall n, In n (nodes G') <-> In n (nodes DiGraph_new) \/ n = PyStr "") /\
    (forall u v, has_edge G' u v = true <->
                 has_edge DiGraph_new u v = true \/
                 (u = PyStr "" /\ v = PyStr "")) /\
    (DiGraph_new = DiGraph_new ->
     nodes G' = [PyStr ""] /\ edges G' = [(PyStr "", PyStr "")] /\
     G' = mkDiGraph [] [(PyStr "", [])]
                    [(PyStr "", [(PyStr "", [])])]
                    [(PyStr "", [(PyStr "", [])])]).
Proof.
  apply (unit_window_self_loop "GATTACA" DiGraph_new);
    [discriminate | constructor].
Defined.

(** C6, as the program behaves.  For every sequence [s], every integer [k]
    (also [k < 2]) and every reachable graph, ingestion returns: nothing
    checks [k] and nothing checks the symbols of [s].  For [k >= 2] every
    window of [k] symbols of [s], whatever its symbols, is in the result as
    the edge from its first [k - 1] symbols to its last [k - 1] symbols. *)
Theorem ingestion_never_raises (s : string) (G : DiGraph) (k : Z) :
  reachable G ->
  exists G',
    add_sequence_to_graph s G k = Ok G' /\
    (2 <= k ->
     forall i : nat, Z.of_nat i + k <= len s ->
       has_edge G' (PyStr (substring i (Z.to_nat (k - 1)) s))
                   (PyStr (substring (S i) (Z.to_nat (k - 1)) s)) = true).
Proof.
  intro HG.
  destruct (add_sequence_to_graph_ok s G k (reachable_well_formed G HG))
    as (G' & E & _ & Hd & _).
  exists G'. split; [assumption|]. intros Hk i Hi.
  destruct (kmer_edge_window s k (Z.of_nat i))
    as (_ & _ & _ & _ & Hp & Hs & _); try lia.
  rewrite Nat2Z.id in Hp, Hs. rewrite <- Hp, <- Hs.
  apply has_edge_data. rewrite Hd.
  destruct (get_edge_data G _ _) as [d|]; [eauto|].
  assert (Ha : adds (fun i => prefix_of (kmer_at s k i))
                    (fun i => suffix_of (kmer_at s k i)) (kmer_indices s k)
                    (PyStr (prefix_of (kmer_at s k (Z.of_nat i))))
                    (PyStr (suffix_of (kmer_at s k (Z.of_nat i)))) = true).
  { apply adds_spec. exists (Z.of_nat i). split; [|now split].
    apply kmer_indices_In. lia. }
  rewrite Ha. eauto.
Qed.

Lemma ingestion_never_raises_witness :
  exists G G',
    add_sequence_to_graph "ACGT" DiGraph_new 3 = Ok G /\
    add_sequence_to_graph "AN-xG" G 2 = Ok G' /\
    (2 <= 2 ->
     forall i : nat, Z.of_nat i + 2 <= len "AN-xG" ->
       has_edge G' (PyStr (substring i (Z.to_nat (2 - 1)) "AN-xG"))
                   (PyStr (substring (S i) (Z.to_nat (2 - 1)) "AN-xG")) = true).
Proof.
  eexists. 
  assert (E : add_sequence_to_graph "ACGT" DiGraph_new 3 =
              Ok (mkDiGraph []
                    [(PyStr "AC", []); (PyStr "CG", []); (PyStr "GT", [])]
                    [(PyStr "AC", [(PyStr "CG", [])]);
                     (PyStr "CG", [(PyStr "GT", [])]); (PyStr "GT", [])]
                    [(PyStr "AC", []); (PyStr "CG", [(PyStr "AC", [])]);
                     (PyStr "GT", [(PyStr "CG", [])])]))
    by reflexivity.
  destruct (ingestion_never_raises "AN-xG" _ 2
              (reachable_ingest _ _ "ACGT" 3 reachable_new E)) as (G' & E' & H).
  exists G'. split; [exact E|]. split; [exact E' | exact H].
Defined.

(** C6, as stated, fails: with [k = 1] and with [k = 0], both below 2,
    ingesting ["ACGT"] into a fresh graph raises nothing and returns a graph
    with a node and an edge in it. *)
Lemma small_k_is_not_rejected :
  1 < 2 /\ 0 < 2 /\
  add_sequence_to_graph "ACGT" DiGraph_new 1 =
    Ok (mkDiGraph [] [(PyStr "", [])] [(PyStr "", [(PyStr "", [])])]
                  [(PyStr "", [(PyStr "", [])])]) /\
  add_sequence_to_graph "ACGT" DiGraph_new 0 =
    Ok (mkDiGraph [] [(PyStr "", [])] [(PyStr "", [(PyStr "", [])])]
                  [(PyStr "", [(PyStr "", [])])]) /\
  forall e, add_sequence_to_graph "ACGT" DiGraph_new 1 <> Raise e.
Proof.
  split; [lia|]. split; [lia|]. split; [reflexivity|]. split; [reflexivity|].
  intros e H. vm_compute in H. discriminate.
Qed.

(** C8.  In every graph reached from [nx.DiGraph()] by ingestions, whatever
    the sequences and the values of [k], the two endpoints of every edge are
    nodes of the graph; and [add_edge] between two nodes other than [None]
    returns a graph that has both endpoints as nodes along with the edge.
    The graph [build_de_bruijn_graph] returns is such a graph
    ([build_de_bruijn_graph_reachable]). *)
Theorem edge_endpoints_are_nodes (G : DiGraph) :
  reachable G ->
  (forall u v, has_edge G u v = true ->
               has_node G u = true /\ has_node G v = true) /\
  (forall u v, u <> PyNone -> v <> PyNone ->
     exists G', add_edge G u v [] = Ok G' /\
                has_node G' u = true /\ has_node G' v = true /\
                has_edge G' u v = true).
Proof.
  intro HG. pose proof (reachable_well_formed G HG) as Hwf. split.
  - intros u v He. rewrite !has_node_In.
    now apply edge_endpoints_in_nodes.
  - intros u v Hu Hv.
    destruct (add_edge_ok G u v Hwf Hu Hv) as (G' & E & _ & Hd & Hn & _).
    exists G'. split; [assumption|]. rewrite !has_node_In, !Hn.
    split; [auto|]. split; [auto|].
    apply has_edge_data. rewrite Hd, !pyobj_eqb_refl. simpl. eauto.
Qed.

Lemma edge_endpoints_are_nodes_witness :
  exists G,
    build_de_bruijn_graph [">r1"; "ACGT "; "AC"; ">r2"; "GGA"] 3 = Ok G /\
    (forall u v, has_edge G u v = true ->
                 has_node G u = true /\ has_node G v = true) /\
    (forall u v, u <> PyNone -> v <> PyNone ->
       exists G', add_edge G u v [] = Ok G' /\
                  has_node G' u = true /\ has_node G' v = true /\
                  has_edge G' u v = true).
Proof.
  eexists. split; [vm_compute; reflexivity|].
  apply edge_endpoints_are_nodes.
  eapply (reachable_ingest _ _ "GGA" 3);
    [eapply (reachable_ingest _ _ "ACGTAC" 3); [apply reachable_new|] |];
    vm_compute; reflexivity.
Defined.

(** C5.  For every graph [G] whose three dictionaries are consistent and
    every [n >= 0], the graph [visualize_graph] draws with [num_nodes = n]
    has [min(n, number_of_nodes)] nodes, namely the first [n] nodes of [G];
    its edges are exactly the edges of [G] with both endpoints among those
    nodes; it is [G] itself when [n] is at least the number of nodes; and it
    has no node and no edge when [n = 0]. *)
Theorem sample_is_the_induced_prefix (G : DiGraph) (n : Z) :
  well_formed G -> 0 <= n ->
  let S := visualize_graph_subgraph G n in
  let first_n := firstn (Z.to_nat n) (nodes G) in
  number_of_nodes S = Z.min n (number_of_nodes G) /\
  (forall u, In u (nodes S) <-> In u first_n) /\
  (forall u v, In (u, v) (edges S) <->
               In (u, v) (edges G) /\ In u first_n /\ In v first_n) /\
  (number_of_nodes G <= n -> S = G) /\
  (n = 0 -> nodes S = [] /\ edges S = []).
Proof.
  intros Hwf Hn S first_n. subst S first_n.
  unfold visualize_graph_subgraph.
  destruct (number_of_nodes G >? n) eqn:Hcmp.
  - assert (Hgt : number_of_nodes G > n) by lia. clear Hcmp.
    rewrite (list_slice_prefix _ _ Hn).
    pose proof (nodes_subgraph_prefix G (Z.to_nat n) Hwf) as Hnode.
    assert (Hnodes : nodes (subgraph G (firstn (Z.to_nat n) (nodes G))) =
                     firstn (Z.to_nat n) (nodes G)).
    { unfold nodes at 1. rewrite Hnode. unfold nodes, dict_keys.
      now rewrite firstn_map. }
    split; [|split; [|split; [|split]]].
    + unfold number_of_nodes in *. rewrite Hnode, length_firstn. lia.
    + intro u. now rewrite Hnodes.
    + intros u v. apply In_edges_subgraph.
    + lia.
    + intros ->. split; [now rewrite Hnodes|]. apply no_member_nil.
      intros [u v] Hin. apply In_edges_subgraph in Hin.
      destruct Hin as (_ & [] & _).
  - assert (Hle : number_of_nodes G <= n) by lia. clear Hcmp.
    assert (Hall : firstn (Z.to_nat n) (nodes G) = nodes G).
    { apply firstn_all2. unfold number_of_nodes, nodes, dict_keys in *.
      rewrite length_map. lia. }
    rewrite Hall. split; [|split; [|split; [|split]]].
    + lia.
    + reflexivity.
    + intros u v. split; [|tauto]. intro Hin. split; [assumption|].
      apply edge_endpoints_in_nodes; [assumption|].
      now apply In_edges_has_edge.
    + reflexivity.
    + intros ->. destruct Hwf as [Hs _ _ _].
      unfold number_of_nodes in Hle.
      assert (Hnode : _node G = []) by (destruct (_node G); [reflexivity | simpl in Hle; lia]).
      unfold nodes, edges. rewrite Hnode in *. simpl in Hs.
      apply dict_keys_nil in Hs. now rewrite Hs.
Qed.

Lemma sample_is_the_induced_prefix_witness :
  exists G,
    add_sequence_to_graph "ACGTACGT" DiGraph_new 3 = Ok G /\
    let S := visualize_graph_subgraph G 2 in
    let first_n := firstn (Z.to_nat 2) (nodes G) in
    number_of_nodes S = Z.min 2 (number_of_nodes G) /\
    (forall u, In u (nodes S) <-> In u first_n) /\
    (forall u v, In (u, v) (edges S) <->
                 In (u, v) (edges G) /\ In u first_n /\ In v first_n) /\
    (number_of_nodes G <= 2 -> S = G) /\
    (2 = 0 -> nodes S = [] /\ edges S = []).
Proof.
  eexists. split; [vm_compute; reflexivity|].
  apply sample_is_the_induced_prefix; [|lia].
  apply reachable_well_formed.
  eapply (reachable_ingest _ _ "ACGTACGT" 3); [apply reachable_new|].
  vm_compute. reflexivity.
Defined.

(** C2.  For every stored graph [G] in which the endpoints of every edge are
    nodes, deserializing the bytes that [serialize] writes for [G] succeeds
    and yields [G]: the same window length, the same nodes, the same edges
    and the same multiplicity for every edge, in the same order. *)
Theorem deserialize_serialize (G : StoredGraph) :
  stored_closed G -> deserialize (serialize G) = Decoded G.
Proof.
  intro Hclosed. destruct G as [k table es]. unfold stored_closed in Hclosed.
  cbn [stored_nodes stored_edges] in Hclosed. unfold deserialize, serialize.
  cbn [stored_k stored_nodes stored_edges].
  rewrite decode_encode_varint, N.eqb_refl. cbn [negb].
  rewrite !decode_encode_varint, !Nat2N.id.
  rewrite (decode_table_flat_map encode_string decode_string table)
    by (intros; apply decode_encode_string).
  rewrite <- (app_nil_r (flat_map (encode_edge table) es)).
  rewrite (decode_table_flat_map (encode_edge table) _ es); [reflexivity|].
  intros [[u v] m] rest Hin. destruct (Hclosed u v m Hin) as [Hu Hv].
  now rewrite decode_encode_edge.
Qed.

Lemma deserialize_serialize_witness :
  let G := mkStoredGraph 3 ["AC"; "CG"; "GT"; "TA"]
             [("AC", "CG", 2%N); ("CG", "GT", 2%N);
              ("GT", "TA", 1%N); ("TA", "AC", 1%N)] in
  stored_closed G /\ deserialize (serialize G) = Decoded G.
Proof.
  intro G.
  assert (H : stored_closed G) by (apply stored_closedb_closed; reflexivity).
  split; [exact H | exact (deserialize_serialize G H)].
Defined.

(** * Further properties of the construction *)

(** ** Loops that keep an invariant *)

Lemma for_each_invariant {A S : Type} (body : A -> S -> result S)
  (Inv : S -> Prop) (R : S -> S -> Prop) (xs : list A) :
  (forall s, R s s) ->
  (forall s1 s2 s3, R s1 s2 -> R s2 s3 -> R s1 s3) ->
  (forall x s s', In x xs -> Inv s -> body x s = Ok s' -> Inv s' /\ R s s') ->
  forall s s', Inv s -> for_each xs body s = Ok s' -> Inv s' /\ R s s'.
Proof.
  intros Hrefl Htrans. induction xs as [|x rest IH]; intros Hstep s s' Hs E.
  - simpl in E. injection E as <-. auto.
  - simpl in E. destruct (body x s) as [s1|e] eqn:E1; [|discriminate].
    simpl in E. destruct (Hstep x s s1 (or_introl eq_refl) Hs E1) as [Hs1 R1].
    destruct (IH (fun y t t' Hy => Hstep y t t' (or_intror Hy)) s1 s' Hs1 E)
      as [Hs' R'].
    split; [assumption|]. eapply Htrans; eassumption.
Qed.

(** ** The shape of the dictionaries after an update *)

Lemma In_dict_setitem {V : Type} (d : dict V) (k a : pyobj) (x r : V) :
  In (a, r) (dict_setitem d k x) -> (a, r) = (k, x) \/ In (a, r) d.
Proof.
  induction d as [|[k0 v0] d IH]; simpl.
  - intros [H|[]]. left. now symmetry.
  - destruct (pyobj_eqb k0 k) eqn:E; simpl.
    + apply pyobj_eqb_eq in E. subst k0. intros [H|H]; [left | right; right];
        [now symmetry | assumption].
    + intros [H|H]; [right; now left|]. destruct (IH H); [now left | right; now right].
Qed.

Lemma dict_get_In_entry {V : Type} (d : dict V) (k : pyobj) (v : V) :
  dict_get d k = Some v -> In (k, v) d.
Proof.
  induction d as [|[k0 v0] d IH]; simpl; [discriminate|].
  destruct (pyobj_eqb k0 k) eqn:E.
  - apply pyobj_eqb_eq in E. subst k0. intro H. injection H as ->. now left.
  - intro H. right. now apply IH.
Qed.

Lemma dict_keys_setitem {V : Type} (d : dict V) (k : pyobj) (v : V) :
  dict_keys (dict_setitem d k v) =
  dict_keys d ++ (if dict_contains d k then [] else [k]).
Proof.
  destruct (dict_contains d k) eqn:E.
  - rewrite app_nil_r. apply dict_keys_setitem_present.
    now apply dict_contains_In.
  - apply dict_keys_setitem_absent. intro H.
    apply dict_contains_In in H. congruence.
Qed.

Lemma NoDup_keys_setitem {V : Type} (d : dict V) (k : pyobj) (v : V) :
  NoDup (dict_keys d) -> NoDup (dict_keys (dict_setitem d k v)).
Proof.
  intro H. rewrite dict_keys_setitem. destruct (dict_contains d k) eqn:E.
  - now rewrite app_nil_r.
  - apply NoDup_app; [assumption | repeat constructor; simpl; tauto |].
    intros x Hx [<-|[]]. apply dict_contains_In in Hx. congruence.
Qed.

Lemma extends_refl (G : DiGraph) : extends G G.
Proof. split; [exists []; now rewrite app_nil_r | auto]. Qed.

Lemma extends_trans (G1 G2 G3 : DiGraph) :
  extends G1 G2 -> extends G2 G3 -> extends G1 G3.
Proof.
  intros [[l1 H1] R1] [[l2 H2] R2]. split; [|auto].
  exists (l1 ++ l2). now rewrite H2, H1, app_assoc.
Qed.

Lemma add_edge_node_extends (G G' : DiGraph) (u : pyobj) :
  add_edge_node G u = Ok G' -> extends G G'.
Proof.
  unfold add_edge_node. destruct (negb (dict_contains (_succ G) u)).
  - destruct u as [|s]; [discriminate|]. intro H. injection H as <-. split.
    + unfold nodes. simpl. rewrite dict_keys_setitem. eauto.
    + intros Hrows a r Hin. simpl in Hin. apply In_dict_setitem in Hin.
      destruct Hin as [H|H]; [injection H as _ ->; constructor|].
      eapply Hrows. eassumption.
  - intro H. injection H as <-. apply extends_refl.
Qed.

Lemma add_edge_data_extends (G G' : DiGraph) (u v : pyobj) (attr : attrs) :
  add_edge_data G u v attr = Ok G' -> extends G G'.
Proof.
  unfold add_edge_data, dict_getitem.
  destruct (dict_get (_succ G) u) as [row|] eqn:Erow; [|discriminate].
  simpl. destruct (dict_get (_pred G) v) as [col|]; [|discriminate].
  simpl. intro H. injection H as <-. split.
  - exists []. now rewrite app_nil_r.
  - intros Hrows a r Hin. simpl in Hin. apply In_dict_setitem in Hin.
    destruct Hin as [H|H]; [|eapply Hrows; eassumption].
    injection H as _ ->. apply NoDup_keys_setitem.
    apply (Hrows u). now apply dict_get_In_entry.
Qed.

Lemma add_edge_extends (G G' : DiGraph) (u v : pyobj) (attr : attrs) :
  add_edge G u v attr = Ok G' -> extends G G'.
Proof.
  unfold add_edge.
  destruct (add_edge_node G u) as [G1|] eqn:E1; [|discriminate]. simpl.
  destruct (add_edge_node G1 v) as [G2|] eqn:E2; [|discriminate]. simpl.
  intro E3.
  eapply extends_trans; [eapply add_edge_node_extends; eassumption|].
  eapply extends_trans; [eapply add_edge_node_extends; eassumption|].
  eapply add_edge_data_extends; eassumption.
Qed.

Lemma add_sequence_to_graph_extends (seq : string) (G G' : DiGraph) (k : Z) :
  add_sequence_to_graph seq G k = Ok G' -> extends G G'.
Proof.
  intro E. unfold add_sequence_to_graph in E.
  eapply (for_each_invariant _ (fun _ => True) extends) in E;
    [tauto | apply extends_refl | apply extends_trans | | exact I].
  intros i H H' _ _ Hbody. split; [exact I|].
  eapply add_edge_extends. eassumption.
Qed.

Lemma reachable_rows_nodup (G : DiGraph) : reachable G -> rows_nodup G.
Proof.
  induction 1 as [|G G' seq k _ IH E].
  - intros u row [].
  - now apply (add_sequence_to_graph_extends seq G G' k E).
Qed.

(** ** What a run of ingestions adds *)

Lemma adds_kmers (seq : string) (k : Z) (a b : pyobj) :
  adds (fun i => prefix_of (kmer_at seq k i))
       (fun i => suffix_of (kmer_at seq k i)) (kmer_indices seq k) a b = true <->
  In (a, b) (map edge_of (kmers seq k)).
Proof.
  rewrite adds_spec. unfold kmers. rewrite map_map, in_map_iff.
  unfold edge_of. split.
  - intros (i & Hi & -> & ->). eauto.
  - intros (i & E & Hi). injection E as <- <-. eauto.
Qed.

Lemma endpoints_kmers (seq : string) (k : Z) (n : pyobj) :
  (exists i, In i (kmer_indices seq k) /\
             (n = PyStr (prefix_of (kmer_at seq k i)) \/
              n = PyStr (suffix_of (kmer_at seq k i)))) <->
  In n (flat_map endpoints_of (kmers seq k)).
Proof.
  rewrite in_flat_map. unfold kmers, endpoints_of. split.
  - intros (i & Hi & H). exists (kmer_at seq k i). split.
    + apply in_map_iff. eauto.
    + simpl. destruct H as [-> | ->]; auto.
  - intros (kmer & Hk & H). apply in_map_iff in Hk.
    destruct Hk as (i & <- & Hi). exists i. split; [assumption|].
    destruct H as [H|[H|[]]]; symmetry in H; auto.
Qed.

(** The graph after one ingestion, in terms of the k-mers of the sequence. *)
Lemma add_sequence_to_graph_adds (seq : string) (G : DiGraph) (k : Z) :
  well_formed G ->
  exists G',
    add_sequence_to_graph seq G k = Ok G' /\ well_formed G' /\
    (forall a b, has_edge G' a b = true <->
                 has_edge G a b = true \/ In (a, b) (map edge_of (kmers seq k))) /\
    (forall a b d, get_edge_data G a b = Some d -> get_edge_data G' a b = Some d) /\
    (forall a b d, get_edge_data G' a b = Some d ->
                   get_edge_data G a b = Some d \/ d = []) /\
    (forall n, In n (nodes G') <->
               In n (nodes G) \/ In n (flat_map endpoints_of (kmers seq k))).
Proof.
  intro Hwf.
  destruct (add_sequence_to_graph_ok seq G k Hwf) as (G' & E & Hwf' & Hd & Hn & _).
  exists G'. split; [assumption|]. split; [assumption|].
  split; [|split; [|split]].
  - intros a b. rewrite <- adds_kmers, !has_edge_data, Hd.
    destruct (get_edge_data G a b) as [d|].
    + split; eauto.
    + destruct (adds _ _ _ a b).
      * split; [now right | eauto].
      * split; [intros [d H]; discriminate | intros [[d H]|H]; discriminate].
  - intros a b d H. now rewrite Hd, H.
  - intros a b d. rewrite Hd. destruct (get_edge_data G a b) as [d0|]; [auto|].
    destruct (adds _ _ _ a b); [|discriminate]. intro H. injection H as <-. auto.
  - intro n. rewrite Hn, endpoints_kmers. reflexivity.
Qed.

(** The graph after a run of ingestions: it always returns on a consistent
    graph, and adds the edges and the endpoints of the k-mers of all the
    sequences. *)
Lemma ingest_all_adds (seqs : list string) (k : Z) : forall G,
  well_formed G ->
  exists G',
    ingest_all seqs k G = Ok G' /\ well_formed G' /\
    (forall a b, has_edge G' a b = true <->
                 has_edge G a b = true \/ In (a, b) (map edge_of (all_kmers seqs k))) /\
    (forall a b d, get_edge_data G a b = Some d -> get_edge_data G' a b = Some d) /\
    (forall a b d, get_edge_data G' a b = Some d ->
                   get_edge_data G a b = Some d \/ d = []) /\
    (forall n, In n (nodes G') <->
               In n (nodes G) \/ In n (flat_map endpoints_of (all_kmers seqs k))).
Proof.
  induction seqs as [|seq rest IH]; intros G Hwf.
  - exists G. split; [reflexivity|]. split; [assumption|]. simpl.
    repeat split; auto; tauto.
  - destruct (add_sequence_to_graph_adds seq G k Hwf)
      as (G1 & E1 & Hwf1 & He1 & Hk1 & Hd1 & Hn1).
    destruct (IH G1 Hwf1) as (G' & E' & Hwf' & He' & Hk' & Hd' & Hn').
    exists G'. unfold ingest_all in *. cbn [for_each]. rewrite E1. cbn [bind].
    split; [assumption|]. split; [assumption|].
    unfold all_kmers in *. cbn [flat_map].
    split; [|split; [|split]].
    + intros a b. rewrite He', He1, map_app, in_app_iff. tauto.
    + auto.
    + intros a b d H. destruct (Hd' a b d H) as [H1|H1]; [|auto].
      apply Hd1. assumption.
    + intro n. rewrite Hn', Hn1, flat_map_app, in_app_iff. tauto.
Qed.

Lemma ingest_all_extends (seqs : list string) (k : Z) (G G' : DiGraph) :
  ingest_all seqs k G = Ok G' -> extends G G'.
Proof.
  intro E. unfold ingest_all in E.
  eapply (for_each_invariant _ (fun _ => True) extends) in E;
    [tauto | apply extends_refl | apply extends_trans | | exact I].
  intros seq H H' _ _ Hbody. split; [exact I|].
  eapply add_sequence_to_graph_extends. eassumption.
Qed.

Lemma ingest_all_reachable (seqs : list string) (k : Z) : forall G G',
  reachable G -> ingest_all seqs k G = Ok G' -> reachable G'.
Proof.
  induction seqs as [|seq rest IH]; intros G G' HG E; unfold ingest_all in *.
  - simpl in E. now injection E as <-.
  - cbn [for_each] in E.
    destruct (add_sequence_to_graph seq G k) as [G1|] eqn:E1; [|discriminate].
    cbn [bind] in E. apply (IH G1); [|assumption].
    eapply reachable_ingest; eassumption.
Qed.

(** ** The file loop *)

(** From any state of the loop, [build_de_bruijn_graph] behaves as the run
    of ingestions of the records that remain. *)
Lemma build_from_state (k : Z) (lines : list string) : forall G seq,
  (st <- for_each lines (build_line k) (G, seq) ;;
   let '(G', seq') := st in
   if negb (String.eqb seq' "") then add_sequence_to_graph seq' G' k else Ok G')
  = ingest_all (fasta_records_from seq lines) k G.
Proof.
  unfold ingest_all.
  induction lines as [|line rest IH]; intros G seq; cbn [for_each fasta_records_from].
  - cbn [bind]. destruct (String.eqb seq ""); cbn [negb for_each]; [reflexivity|].
    now destruct (add_sequence_to_graph seq G k).
  - unfold build_line at 1. destruct (startswith_gt line).
    + destruct (String.eqb seq "") eqn:Eseq; cbn [negb app].
      * apply String.eqb_eq in Eseq. subst seq. cbn [bind]. apply IH.
      * cbn [for_each].
        destruct (add_sequence_to_graph seq G k) as [G1|e]; cbn [bind];
          [apply IH | reflexivity].
    + cbn [bind]. apply IH.
Qed.

(** ** Records of a FASTA text *)

Lemma string_append_assoc (a b c : string) :
  ((a ++ b) ++ c = a ++ (b ++ c))%string.
Proof. induction a as [|x a IH]; simpl; [reflexivity | now rewrite IH]. Qed.

Lemma string_append_nil_r (a : string) : (a ++ "")%string = a.
Proof. induction a as [|x a IH]; simpl; [reflexivity | now rewrite IH]. Qed.

Lemma is_fastab_is_fasta (recs : list (string * list string)) :
  is_fastab recs = true -> is_fasta recs.
Proof.
  unfold is_fastab, is_fasta. rewrite forallb_forall, Forall_forall.
  intros H r Hr. specialize (H r Hr). apply andb_true_iff in H.
  destruct H as [Hh Hb]. split; [assumption|].
  rewrite forallb_forall in Hb. apply Forall_forall. intros line Hl.
  specialize (Hb line Hl). now destruct (startswith_gt line).
Qed.

(** Body lines only extend the content gathered so far. *)
Lemma fasta_records_from_body (body rest : list string) : forall seq,
  Forall (fun line => startswith_gt line = false) body ->
  fasta_records_from seq (body ++ rest) =
  fasta_records_from (seq ++ record_sequence body)%string rest.
Proof.
  induction body as [|line body IH]; intros seq Hbody.
  - unfold record_sequence. simpl. now rewrite string_append_nil_r.
  - inversion Hbody as [|? ? Hline Hbody']; subst.
    cbn [app fasta_records_from]. rewrite Hline, (IH _ Hbody').
    unfold record_sequence. cbn [map fold_right].
    now rewrite string_append_assoc.
Qed.

Lemma fasta_records_from_text (recs : list (string * list string)) : forall seq,
  is_fasta recs ->
  fasta_records_from seq (fasta_text recs) =
  (if String.eqb seq "" then [] else [seq]) ++ record_sequences recs.
Proof.
  induction recs as [|[header body] recs IH]; intros seq Hrecs.
  - simpl. now rewrite app_nil_r.
  - inversion Hrecs as [|? ? [Hheader Hbody] Hrecs']; subst. simpl in Hheader, Hbody.
    unfold fasta_text. cbn [flat_map fst snd app fasta_records_from].
    rewrite Hheader. f_equal.
    rewrite (fasta_records_from_body body _ "" Hbody).
    fold (fasta_text recs). rewrite (IH _ Hrecs').
    unfold record_sequences. cbn [map filter snd append].
    now destruct (String.eqb (record_sequence body) "").
Qed.

(** X1.  On a text made of records, each a header line (starting with [>])
    followed by body lines (not starting with [>]), [build_de_bruijn_graph]
    does what ingesting the records one after the other into a fresh graph
    does, the sequence of a record being its body lines stripped and joined;
    records without content are skipped and the header texts play no part. *)
Theorem build_ingests_each_record (recs : list (string * list string)) (k : Z) :
  is_fasta recs ->
  exists G,
    build_de_bruijn_graph (fasta_text recs) k = Ok G /\
    ingest_all (record_sequences recs) k DiGraph_new = Ok G.
Proof.
  intro Hrecs. unfold build_de_bruijn_graph.
  rewrite (build_from_state k (fasta_text recs) DiGraph_new "").
  rewrite (fasta_records_from_text recs "" Hrecs). cbn [String.eqb app].
  destruct (ingest_all_adds (record_sequences recs) k DiGraph_new well_formed_new)
    as (G & E & _).
  exists G. now split.
Qed.

Lemma build_ingests_each_record_witness :
  let recs := [(">r1 first", ["ACG "; " TAC"]); (">empty", [" "]);
               (">r2", ["GGA"])] in
  is_fasta recs /\
  record_sequences recs = ["ACGTAC"; "GGA"] /\
  exists G,
    build_de_bruijn_graph (fasta_text recs) 3 = Ok G /\
    ingest_all (record_sequences recs) 3 DiGraph_new = Ok G.
Proof.
  intro recs.
  assert (H : is_fasta recs) by (apply is_fastab_is_fasta; reflexivity).
  split; [exact H|]. split; [reflexivity|].
  exact (build_ingests_each_record recs 3 H).
Defined.

Lemma fasta_records_from_blank (lines : list string) :
  Forall (fun line => startswith_gt line = true \/ strip line = "") lines ->
  fasta_records_from "" lines = [].
Proof.
  induction 1 as [|line rest [Hh|Hb] _ IH]; cbn [fasta_records_from].
  - reflexivity.
  - now rewrite Hh.
  - destruct (startswith_gt line); [exact IH|]. now rewrite Hb.
Qed.

(** X2.  A text in which every line is a header or is blank once stripped
    (the empty text among them) yields the empty graph, for every [k]:
    nothing is ingested and nothing is raised. *)
Theorem build_without_content_is_empty (lines : list string) (k : Z) :
  Forall (fun line => startswith_gt line = true \/ strip line = "") lines ->
  build_de_bruijn_graph lines k = Ok DiGraph_new.
Proof.
  intro H. unfold build_de_bruijn_graph.
  rewrite (build_from_state k lines DiGraph_new "").
  now rewrite (fasta_records_from_blank lines H).
Qed.

Lemma build_without_content_is_empty_witness :
  build_de_bruijn_graph [">only a header"; "   "; ""; ">another"] 0
  = Ok DiGraph_new.
Proof.
  apply build_without_content_is_empty.
  repeat constructor; (now left) || (now right).
Defined.

(** ** Counting nodes and edges *)

Lemma same_members_same_length {A : Type} (l l' : list A) :
  NoDup l -> NoDup l' -> (forall x, In x l <-> In x l') ->
  List.length l = List.length l'.
Proof.
  intros Hl Hl' H. apply Nat.le_antisymm; apply NoDup_incl_length;
    try assumption; intros x Hx; now apply H.
Qed.

Lemma NoDup_map_pair (u : pyobj) (l : list pyobj) :
  NoDup l -> NoDup (map (fun v => (u, v)) l).
Proof.
  induction 1 as [|v l Hv _ IH]; simpl; constructor; [|assumption].
  intro H. apply in_map_iff in H. destruct H as (w & E & Hw).
  injection E as ->. contradiction.
Qed.

Lemma NoDup_flat_rows (d : dict (dict attrs)) :
  NoDup (dict_keys d) ->
  (forall u row, In (u, row) d -> NoDup (dict_keys row)) ->
  NoDup (flat_map (fun '(u, nbrs) => map (fun v => (u, v)) (dict_keys nbrs)) d).
Proof.
  induction d as [|[u row] d IH]; intros Hk Hrows; simpl; [constructor|].
  inversion Hk as [|? ? Hu Hk']; subst.
  apply NoDup_app.
  - apply NoDup_map_pair. apply (Hrows u). now left.
  - apply IH; [assumption|]. intros a r Hin. apply (Hrows a). now right.
  - intros [a b] Hin Hin'. apply in_map_iff in Hin.
    destruct Hin as (w & E & _). injection E as <- <-.
    apply in_flat_map in Hin'. destruct Hin' as ([a' r'] & Hd & Hin').
    apply in_map_iff in Hin'. destruct Hin' as (w' & E' & _).
    injection E' as Ea _. subst a'. apply Hu.
    apply (in_map fst) in Hd. exact Hd.
Qed.

(** A reachable graph lists no node and no edge twice. *)
Lemma reachable_NoDup (G : DiGraph) :
  reachable G -> NoDup (nodes G) /\ NoDup (edges G).
Proof.
  intro HG. pose proof (reachable_well_formed G HG) as [Hs Hp Hn Hm].
  split; [assumption|]. apply NoDup_flat_rows.
  - now rewrite Hs.
  - apply reachable_rows_nodup. assumption.
Qed.

(** X3.  Ingestion only appends: on a reachable graph it returns a graph
    whose node list is the old one followed by the new nodes, in which every
    old edge is still an edge with the data it had, and whose first [n]
    nodes are the first [n] nodes of the old graph for every [n] up to the
    old number of nodes. *)
Theorem ingestion_only_appends (seq : string) (G : DiGraph) (k : Z) :
  reachable G ->
  exists G',
    add_sequence_to_graph seq G k = Ok G' /\
    (exists added, nodes G' = nodes G ++ added) /\
    (forall u v d, get_edge_data G u v = Some d -> get_edge_data G' u v = Some d) /\
    number_of_nodes G <= number_of_nodes G' /\
    (forall n, 0 <= n <= number_of_nodes G ->
               firstn (Z.to_nat n) (nodes G') = firstn (Z.to_nat n) (nodes G)).
Proof.
  intro HG.
  destruct (add_sequence_to_graph_adds seq G k (reachable_well_formed G HG))
    as (G' & E & _ & _ & Hkeep & _).
  destruct (add_sequence_to_graph_extends seq G G' k E) as [[added Hadd] _].
  exists G'. split; [assumption|]. split; [eauto|]. split; [assumption|].
  assert (Hlen : forall H, number_of_nodes H = Z.of_nat (List.length (nodes H))).
  { intro H. unfold number_of_nodes, nodes, dict_keys. now rewrite length_map. }
  split.
  - rewrite !Hlen, Hadd, length_app. lia.
  - intros n Hn. rewrite Hlen in Hn. rewrite Hadd, firstn_app.
    replace (Z.to_nat n - List.length (nodes G))%nat with 0%nat by lia.
    simpl. now rewrite app_nil_r.
Qed.

Lemma ingestion_only_appends_witness :
  exists G G',
    add_sequence_to_graph "ACGT" DiGraph_new 3 = Ok G /\
    add_sequence_to_graph "TTAC" G 3 = Ok G' /\
    (exists added, nodes G' = nodes G ++ added) /\
    (forall u v d, get_edge_data G u v = Some d -> get_edge_data G' u v = Some d) /\
    number_of_nodes G <= number_of_nodes G' /\
    (forall n, 0 <= n <= number_of_nodes G ->
               firstn (Z.to_nat n) (nodes G') = firstn (Z.to_nat n) (nodes G)).
Proof.
  eexists.
  assert (E : add_sequence_to_graph "ACGT" DiGraph_new 3 =
              Ok (mkDiGraph []
                    [(PyStr "AC", []); (PyStr "CG", []); (PyStr "GT", [])]
                    [(PyStr "AC", [(PyStr "CG", [])]);
                     (PyStr "CG", [(PyStr "GT", [])]); (PyStr "GT", [])]
                    [(PyStr "AC", []); (PyStr "CG", [(PyStr "AC", [])]);
                     (PyStr "GT", [(PyStr "CG", [])])]))
    by reflexivity.
  destruct (ingestion_only_appends "TTAC" _ 3
              (reachable_ingest _ _ "ACGT" 3 reachable_new E)) as (G' & H).
  exists G'. split; [exact E | exact H].
Defined.

Lemma number_of_nodes_length (G : DiGraph) :
  number_of_nodes G = Z.of_nat (List.length (nodes G)).
Proof. unfold number_of_nodes, nodes, dict_keys. now rewrite length_map. Qed.

(** Two reachable graphs with the same nodes and the same edges, in whatever
    order, have the same counts. *)
Lemma same_content_same_counts (G1 G2 : DiGraph) :
  reachable G1 -> reachable G2 ->
  (forall n, In n (nodes G1) <-> In n (nodes G2)) ->
  (forall u v, has_edge G1 u v = has_edge G2 u v) ->
  number_of_nodes G1 = number_of_nodes G2 /\
  number_of_edges G1 = number_of_edges G2.
Proof.
  intros H1 H2 Hn He.
  destruct (reachable_NoDup G1 H1) as [Hn1 He1].
  destruct (reachable_NoDup G2 H2) as [Hn2 He2].
  split.
  - rewrite !number_of_nodes_length. f_equal.
    now apply same_members_same_length.
  - unfold number_of_edges. f_equal.
    apply same_members_same_length; try assumption.
    intros [u v].
    rewrite (In_edges_has_edge G1 u v (reachable_well_formed G1 H1)).
    rewrite (In_edges_has_edge G2 u v (reachable_well_formed G2 H2)).
    now rewrite He.
Qed.

Lemma all_kmers_Permutation (seqs seqs' : list string) (k : Z) (x : string) :
  Permutation seqs seqs' -> In x (all_kmers seqs k) -> In x (all_kmers seqs' k).
Proof.
  intros Hp Hin. unfold all_kmers in *. apply in_flat_map in Hin.
  destruct Hin as (seq & Hseq & Hx). apply in_flat_map. exists seq.
  split; [|assumption]. eapply Permutation_in; eassumption.
Qed.

(** X4.  The order in which sequences are ingested does not matter for the
    content of the graph: ingesting a list of sequences and ingesting a
    rearrangement of it into the same reachable graph both return, and the
    two results have the same nodes, the same edges with the same data, and
    the same numbers of nodes and of edges.  (The order of the nodes may
    differ.) *)
Theorem ingestion_order_is_irrelevant (seqs seqs' : list string) (k : Z)
  (G : DiGraph) :
  Permutation seqs seqs' -> reachable G ->
  exists G1 G2,
    ingest_all seqs k G = Ok G1 /\ ingest_all seqs' k G = Ok G2 /\
    (forall n, In n (nodes G1) <-> In n (nodes G2)) /\
    (forall u v, get_edge_data G1 u v = get_edge_data G2 u v) /\
    number_of_nodes G1 = number_of_nodes G2 /\
    number_of_edges G1 = number_of_edges G2.
Proof.
  intros Hp HG. pose proof (reachable_well_formed G HG) as Hwf.
  destruct (ingest_all_adds seqs k G Hwf) as (G1 & E1 & _ & He1 & Hk1 & Hd1 & Hn1).
  destruct (ingest_all_adds seqs' k G Hwf) as (G2 & E2 & _ & He2 & Hk2 & Hd2 & Hn2).
  exists G1, G2. split; [assumption|]. split; [assumption|].
  assert (Hkm : forall x, In x (all_kmers seqs k) <-> In x (all_kmers seqs' k)).
  { intro x. split; apply all_kmers_Permutation;
      [assumption | now apply Permutation_sym]. }
  assert (Hnodes : forall n, In n (nodes G1) <-> In n (nodes G2)).
  { intro n. rewrite Hn1, Hn2, !in_flat_map.
    split; (intros [H|(x & Hx & H)]; [now left | right; exists x]);
      (split; [now apply Hkm | assumption]). }
  assert (Hedges : forall u v, has_edge G1 u v = true <-> has_edge G2 u v = true).
  { intros u v. rewrite He1, He2, !in_map_iff.
    split; (intros [H|(x & Hx & H)]; [now left | right; exists x]);
      (split; [assumption | now apply Hkm]). }
  assert (Hdata : forall u v, get_edge_data G1 u v = get_edge_data G2 u v).
  { intros u v. destruct (get_edge_data G u v) as [d|] eqn:Ed.
    - now rewrite (Hk1 u v d Ed), (Hk2 u v d Ed).
    - specialize (Hedges u v). rewrite !has_edge_data in Hedges.
      destruct (get_edge_data G1 u v) as [d1|] eqn:Ed1,
               (get_edge_data G2 u v) as [d2|] eqn:Ed2.
      + destruct (Hd1 u v d1 Ed1) as [H|H]; [congruence|].
        destruct (Hd2 u v d2 Ed2) as [H'|H']; congruence.
      + destruct (proj1 Hedges) as [d H]; [eauto | discriminate].
      + destruct (proj2 Hedges) as [d H]; [eauto | discriminate].
      + reflexivity. }
  split; [assumption|]. split; [assumption|].
  apply same_content_same_counts.
  - eapply ingest_all_reachable; eassumption.
  - eapply ingest_all_reachable; eassumption.
  - assumption.
  - intros u v. unfold has_edge. now rewrite Hdata.
Qed.

Lemma ingestion_order_is_irrelevant_witness :
  exists G1 G2,
    ingest_all ["ACGT"; "TTAC"] 3 DiGraph_new = Ok G1 /\
    ingest_all ["TTAC"; "ACGT"] 3 DiGraph_new = Ok G2 /\
    (forall n, In n (nodes G1) <-> In n (nodes G2)) /\
    (forall u v, get_edge_data G1 u v = get_edge_data G2 u v) /\
    number_of_nodes G1 = number_of_nodes G2 /\
    number_of_edges G1 = number_of_edges G2.
Proof.
  apply ingestion_order_is_irrelevant; [apply perm_swap | apply reachable_new].
Defined.

(** ** K-mers and the edges they stand for *)

Lemma substring_whole (t : string) : substring 0 (String.length t) t = t.
Proof. induction t as [|c t IH]; simpl; [reflexivity | now rewrite IH]. Qed.

Lemma In_kmers (seq : string) (k : Z) (t : string) :
  In t (kmers seq k) <->
  exists i, 0 <= i /\ i + k <= len seq /\ t = kmer_at seq k i.
Proof.
  unfold kmers. rewrite in_map_iff. split.
  - intros (i & <- & Hi). apply kmer_indices_In in Hi. exists i. tauto.
  - intros (i & H0 & H1 & ->). exists i. split; [reflexivity|].
    apply kmer_indices_In. tauto.
Qed.

Lemma kmers_have_length (seq : string) (k : Z) (t : string) :
  0 <= k -> In t (kmers seq k) -> String.length t = Z.to_nat k.
Proof.
  intros Hk Hin. apply In_kmers in Hin. destruct Hin as (i & H0 & H1 & ->).
  destruct (kmer_at_window seq k i H0 Hk H1) as [_ Hl]. unfold len in Hl. lia.
Qed.

(** A k-mer of two symbols or more is its first symbol followed by
    [kmer[1:]], and [kmer[:-1]] starts with that first symbol. *)
Lemma long_kmer_parts (c c' : ascii) (r : string) :
  suffix_of (String c (String c' r)) = String c' r /\
  exists p, prefix_of (String c (String c' r)) = String c p.
Proof.
  split.
  - rewrite suffix_of_window by (unfold len; cbn [String.length]; lia).
    replace (Z.to_nat (len (String c (String c' r)) - 1))
      with (String.length (String c' r)) by (unfold len; cbn [String.length]; lia).
    change (substring 1 (String.length (String c' r)) (String c (String c' r)))
      with (substring 0 (String.length (String c' r)) (String c' r)).
    apply substring_whole.
  - rewrite prefix_of_window by (unfold len; cbn [String.length]; lia).
    replace (Z.to_nat (len (String c (String c' r)) - 1))
      with (S (String.length r)) by (unfold len; cbn [String.length]; lia).
    simpl. eauto.
Qed.

(** Two k-mers of two symbols or more with the same edge are the same. *)
Lemma edge_of_injective (t1 t2 : string) :
  (2 <= String.length t1)%nat -> (2 <= String.length t2)%nat ->
  edge_of t1 = edge_of t2 -> t1 = t2.
Proof.
  destruct t1 as [|c1 [|c1' r1]]; simpl; try lia.
  destruct t2 as [|c2 [|c2' r2]]; simpl; try lia.
  intros _ _ E. unfold edge_of in E. injection E as Ep Es.
  destruct (long_kmer_parts c1 c1' r1) as [Hs1 [p1 Hp1]].
  destruct (long_kmer_parts c2 c2' r2) as [Hs2 [p2 Hp2]].
  rewrite Hs1, Hs2 in Es. rewrite Hp1, Hp2 in Ep. congruence.
Qed.

Lemma NoDup_map_injective_on {A B : Type} (f : A -> B) (l : list A) :
  (forall x y, In x l -> In y l -> f x = f y -> x = y) ->
  NoDup l -> NoDup (map f l).
Proof.
  intros Hinj Hl. induction Hl as [|a l Ha Hl IH]; simpl; constructor.
  - intro H. apply in_map_iff in H. destruct H as (b & E & Hb).
    assert (b = a) by (apply Hinj; simpl; auto). now subst.
  - apply IH. intros x y Hx Hy. apply Hinj; now right.
Qed.

Lemma In_all_kmers (seqs : list string) (k : Z) (t : string) :
  In t (all_kmers seqs k) <-> exists seq, In seq seqs /\ In t (kmers seq k).
Proof. unfold all_kmers. apply in_flat_map. Qed.

(** The graph built from a fresh one by a run of ingestions. *)
Lemma ingest_all_fresh (seqs : list string) (k : Z) :
  exists G,
    ingest_all seqs k DiGraph_new = Ok G /\ reachable G /\
    (forall a b, has_edge G a b = true <-> In (a, b) (map edge_of (all_kmers seqs k))) /\
    (forall n, In n (nodes G) <-> In n (flat_map endpoints_of (all_kmers seqs k))).
Proof.
  destruct (ingest_all_adds seqs k DiGraph_new well_formed_new)
    as (G & E & _ & He & _ & _ & Hn).
  exists G. split; [assumption|].
  split; [eapply ingest_all_reachable; [apply reachable_new | eassumption]|].
  split.
  - intros a b. rewrite He. split; [|auto]. intros [H|H]; [discriminate | assumption].
  - intro n. rewrite Hn. split; [|auto]. intros [[]|H]. assumption.
Qed.

Lemma build_is_ingest_all (lines : list string) (k : Z) :
  build_de_bruijn_graph lines k = ingest_all (fasta_records lines) k DiGraph_new.
Proof. unfold build_de_bruijn_graph, fasta_records. apply build_from_state. Qed.

(** X5.  For [k >= 2] the number of edges of the graph
    [build_de_bruijn_graph] returns, which [main] prints, is the number of
    distinct k-mers in the records of the text: a repeated k-mer counts
    once, wherever it occurs. *)
Theorem edge_count_is_distinct_kmers (lines : list string) (k : Z) :
  2 <= k ->
  exists G,
    build_de_bruijn_graph lines k = Ok G /\
    number_of_edges G =
    Z.of_nat (List.length (nodup string_dec (all_kmers (fasta_records lines) k))).
Proof.
  intro Hk. rewrite build_is_ingest_all.
  destruct (ingest_all_fresh (fasta_records lines) k) as (G & E & HG & He & _).
  exists G. split; [assumption|]. unfold number_of_edges. f_equal.
  rewrite <- (length_map edge_of).
  apply same_members_same_length.
  - apply reachable_NoDup. assumption.
  - apply NoDup_map_injective_on; [|apply NoDup_nodup].
    intros x y Hx Hy. apply nodup_In, In_all_kmers in Hx, Hy.
    destruct Hx as (sx & _ & Hx), Hy as (sy & _ & Hy).
    apply kmers_have_length in Hx, Hy; try lia.
    apply edge_of_injective; lia.
  - intros [a b].
    rewrite (In_edges_has_edge G a b (reachable_well_formed G HG)), He.
    rewrite !in_map_iff. split; intros (t & Et & Ht); exists t;
      (split; [assumption|]).
    + apply nodup_In. exact Ht.
    + apply (proj1 (nodup_In string_dec _ _) Ht).
Qed.

Lemma edge_count_is_distinct_kmers_witness :
  exists G,
    build_de_bruijn_graph [">r1"; "ACGTACGT"; ">r2"; "CGTA"] 3 = Ok G /\
    number_of_edges G = 4.
Proof. apply (edge_count_is_distinct_kmers [">r1"; "ACGTACGT"; ">r2"; "CGTA"] 3). lia. Defined.

(** For [k >= 2] the endpoints of the k-mers of a sequence are its
    (k-1)-mers, provided the sequence holds a k-mer at all. *)
Lemma endpoints_are_node_mers (seq : string) (k : Z) (n : pyobj) :
  2 <= k ->
  (In n (flat_map endpoints_of (kmers seq k)) <->
   exists t, n = PyStr t /\
             In t (if len seq <? k then [] else kmers seq (k - 1))).
Proof.
  intro Hk. rewrite in_flat_map. split.
  - intros (kmer & Hkmer & Hn). apply In_kmers in Hkmer.
    destruct Hkmer as (i & Hi0 & Hi1 & ->).
    destruct (kmer_edge_window seq k i) as (_ & _ & _ & _ & Hp & Hs & _); try lia.
    assert (E : (len seq <? k) = false) by lia. rewrite E.
    destruct Hn as [<-|[<-|[]]].
    + exists (prefix_of (kmer_at seq k i)). split; [reflexivity|].
      apply In_kmers. exists i. split; [lia|]. split; [lia|].
      rewrite Hp. symmetry. apply kmer_at_window; lia.
    + exists (suffix_of (kmer_at seq k i)). split; [reflexivity|].
      apply In_kmers. exists (i + 1). split; [lia|]. split; [lia|].
      rewrite Hs. destruct (kmer_at_window seq (k - 1) (i + 1)) as [-> _]; try lia.
      f_equal. lia.
  - intros (t & -> & Ht). destruct (len seq <? k) eqn:E; [destruct Ht|].
    apply In_kmers in Ht. destruct Ht as (j & Hj0 & Hj1 & ->).
    destruct (kmer_at_window seq (k - 1) j) as [Hw _]; try lia.
    destruct (Z.le_gt_cases (j + k) (len seq)) as [Hin|Hlast].
    + exists (kmer_at seq k j). split; [apply In_kmers; exists j; tauto|].
      destruct (kmer_edge_window seq k j) as (_ & _ & _ & _ & Hp & _); try lia.
      left. now rewrite Hp, Hw.
    + exists (kmer_at seq k (j - 1)).
      split; [apply In_kmers; exists (j - 1); repeat split; lia|].
      destruct (kmer_edge_window seq k (j - 1)) as (_ & _ & _ & _ & _ & Hs & _);
        try lia.
      right. left. rewrite Hs, Hw. do 2 f_equal. lia.
Qed.

Lemma In_node_mers (seqs : list string) (k : Z) (n : pyobj) :
  2 <= k ->
  (In n (flat_map endpoints_of (all_kmers seqs k)) <->
   In n (map PyStr (node_mers seqs k))).
Proof.
  intro Hk. unfold node_mers. rewrite in_map_iff, in_flat_map. split.
  - intros (kmer & Hkmer & Hn). apply In_all_kmers in Hkmer.
    destruct Hkmer as (seq & Hseq & Hkmer).
    assert (H : In n (flat_map endpoints_of (kmers seq k)))
      by (apply in_flat_map; eauto).
    apply (endpoints_are_node_mers seq k n Hk) in H.
    destruct H as (t & -> & Ht). exists t. split; [reflexivity|].
    apply in_flat_map. eauto.
  - intros (t & <- & Ht). apply in_flat_map in Ht.
    destruct Ht as (seq & Hseq & Ht).
    assert (H : In (PyStr t) (flat_map endpoints_of (kmers seq k)))
      by (apply (endpoints_are_node_mers seq k _ Hk); eauto).
    apply in_flat_map in H. destruct H as (kmer & Hkmer & Hn).
    exists kmer. split; [|assumption]. apply In_all_kmers. eauto.
Qed.

(** X6.  For [k >= 2] the number of nodes of the graph
    [build_de_bruijn_graph] returns, which [main] prints, is the number of
    distinct (k-1)-mers in the records that hold at least [k] symbols;
    shorter records contribute no node. *)
Theorem node_count_is_distinct_node_mers (lines : list string) (k : Z) :
  2 <= k ->
  exists G,
    build_de_bruijn_graph lines k = Ok G /\
    number_of_nodes G =
    Z.of_nat (List.length (nodup string_dec (node_mers (fasta_records lines) k))).
Proof.
  intro Hk. rewrite build_is_ingest_all.
  destruct (ingest_all_fresh (fasta_records lines) k) as (G & E & HG & _ & Hn).
  exists G. split; [assumption|]. rewrite number_of_nodes_length. f_equal.
  rewrite <- (length_map PyStr).
  apply same_members_same_length.
  - apply reachable_NoDup. assumption.
  - apply NoDup_map_injective_on; [|apply NoDup_nodup].
    intros x y _ _ H. now injection H.
  - intro n. rewrite Hn, (In_node_mers _ k n Hk), !in_map_iff.
    split; intros (t & Et & Ht); exists t; (split; [assumption|]).
    + apply nodup_In. exact Ht.
    + apply (proj1 (nodup_In string_dec _ _) Ht).
Qed.

Lemma node_count_is_distinct_node_mers_witness :
  exists G,
    build_de_bruijn_graph [">r1"; "ACGTACGT"; ">short"; "TT"; ">r2"; "CGTA"] 3
      = Ok G /\
    number_of_nodes G = 4.
Proof.
  apply (node_count_is_distinct_node_mers
           [">r1"; "ACGTACGT"; ">short"; "TT"; ">r2"; "CGTA"] 3). lia.
Defined.

(** ** A negative number of nodes to draw *)

Lemma list_slice_drop_last {A : Type} (xs : list A) (n : Z) :
  n < 0 ->
  list_slice xs None (Some n) =
  firstn (Z.to_nat (Z.of_nat (List.length xs) + n)) xs.
Proof.
  intro Hn. unfold list_slice, slice_bounds, slice_index.
  assert (E : (n <? 0) = true) by lia. rewrite E. simpl skipn.
  rewrite Z.sub_0_r. f_equal. lia.
Qed.

(** X7.  A negative [num_nodes] is not rejected: [visualize_graph] then
    draws the graph without its last [-num_nodes] nodes.  The drawn graph
    has [max(0, number_of_nodes + num_nodes)] nodes, the first ones of [G],
    and exactly the edges of [G] between them. *)
Theorem negative_num_nodes_drops_last (G : DiGraph) (n : Z) :
  well_formed G -> n < 0 ->
  let S := visualize_graph_subgraph G n in
  let kept := firstn (Z.to_nat (number_of_nodes G + n)) (nodes G) in
  number_of_nodes S = Z.max 0 (number_of_nodes G + n) /\
  (forall u, In u (nodes S) <-> In u kept) /\
  (forall u v, In (u, v) (edges S) <->
               In (u, v) (edges G) /\ In u kept /\ In v kept).
Proof.
  intros Hwf Hn S kept. subst S kept. unfold visualize_graph_subgraph.
  assert (Hpos : 0 <= number_of_nodes G) by (unfold number_of_nodes; lia).
  assert (Hcmp : (number_of_nodes G >? n) = true) by lia. rewrite Hcmp.
  rewrite (list_slice_drop_last _ _ Hn), <- number_of_nodes_length.
  set (m := Z.to_nat (number_of_nodes G + n)).
  pose proof (nodes_subgraph_prefix G m Hwf) as Hnode.
  assert (Hnodes : nodes (subgraph G (firstn m (nodes G))) = firstn m (nodes G)).
  { unfold nodes at 1. rewrite Hnode. unfold nodes, dict_keys.
    now rewrite firstn_map. }
  split; [|split].
  - unfold number_of_nodes in *. rewrite Hnode, length_firstn. subst m. lia.
  - intro u. now rewrite Hnodes.
  - intros u v. apply In_edges_subgraph.
Qed.

Lemma negative_num_nodes_drops_last_witness :
  exists G,
    add_sequence_to_graph "ACGTACGT" DiGraph_new 3 = Ok G /\
    let S := visualize_graph_subgraph G (-1) in
    let kept := firstn (Z.to_nat (number_of_nodes G + -1)) (nodes G) in
    number_of_nodes S = Z.max 0 (number_of_nodes G + -1) /\
    (forall u, In u (nodes S) <-> In u kept) /\
    (forall u v, In (u, v) (edges S) <->
                 In (u, v) (edges G) /\ In u kept /\ In v kept).
Proof.
  eexists. split; [vm_compute; reflexivity|].
  apply negative_num_nodes_drops_last; [|lia].
  apply reachable_well_formed.
  eapply (reachable_ingest _ _ "ACGTACGT" 3); [apply reachable_new|].
  vm_compute. reflexivity.
Defined.

(** ** The graph a text yields *)

(** X8.  For [k >= 2] the graph [build_de_bruijn_graph] returns is a de
    Bruijn graph of order [k]: every node is a string of exactly [k - 1]
    symbols, every edge joins two nodes of which the first without its first
    symbol is the second without its last symbol, and every edge carries the
    data [{}]. *)
Theorem build_yields_overlapping_mers (lines : list string) (k : Z) :
  2 <= k ->
  exists G,
    build_de_bruijn_graph lines k = Ok G /\
    (forall n, In n (nodes G) ->
       exists t, n = PyStr t /\ String.length t = Z.to_nat (k - 1)) /\
    (forall u v, has_edge G u v = true ->
       exists a b, u = PyStr a /\ v = PyStr b /\
                   substring 1 (Z.to_nat (k - 2)) a =
                   substring 0 (Z.to_nat (k - 2)) b /\
                   get_edge_data G u v = Some []).
Proof.
  intro Hk. rewrite build_is_ingest_all.
  destruct (ingest_all_adds (fasta_records lines) k DiGraph_new well_formed_new)
    as (G & E & _ & He & _ & Hd & Hn).
  exists G. split; [assumption|]. split.
  - intros n Hin. apply Hn in Hin. destruct Hin as [[]|Hin].
    apply in_flat_map in Hin. destruct Hin as (kmer & Hkmer & Hin).
    apply In_all_kmers in Hkmer. destruct Hkmer as (seq & _ & Hkmer).
    apply In_kmers in Hkmer. destruct Hkmer as (i & Hi0 & Hi1 & ->).
    destruct (kmer_edge_window seq k i)
      as (_ & _ & _ & _ & _ & _ & Hlp & Hls & _); try lia.
    destruct Hin as [<-|[<-|[]]]; eauto.
  - intros u v Huv. pose proof Huv as Hdata.
    apply has_edge_data in Hdata. destruct Hdata as [d Hdata].
    destruct (Hd u v d Hdata) as [H | ->]; [discriminate|].
    apply He in Huv. destruct Huv as [Huv|Huv]; [discriminate|].
    apply in_map_iff in Huv. destruct Huv as (kmer & Eedge & Hkmer).
    unfold edge_of in Eedge. injection Eedge as <- <-.
    apply In_all_kmers in Hkmer. destruct Hkmer as (seq & _ & Hkmer).
    apply In_kmers in Hkmer. destruct Hkmer as (i & Hi0 & Hi1 & ->).
    destruct (kmer_edge_window seq k i) as (_ & _ & Hp & Hs & _); try lia.
    exists (prefix_of (kmer_at seq k i)), (suffix_of (kmer_at seq k i)).
    split; [reflexivity|]. split; [reflexivity|]. split; [|assumption].
    rewrite Hp, Hs, !substring_substring by lia. reflexivity.
Qed.

Lemma build_yields_overlapping_mers_witness :
  exists G,
    build_de_bruijn_graph [">r1"; "ACGTAC"; "GT"; ">r2"; "TTGA"] 4 = Ok G /\
    (forall n, In n (nodes G) ->
       exists t, n = PyStr t /\ String.length t = 3%nat) /\
    (forall u v, has_edge G u v = true ->
       exists a b, u = PyStr a /\ v = PyStr b /\
                   substring 1 2 a = substring 0 2 b /\
                   get_edge_data G u v = Some []).
Proof.
  apply (build_yields_overlapping_mers [">r1"; "ACGTAC"; "GT"; ">r2"; "TTGA"] 4).
  lia.
Defined.

(** X9.  No reachable graph has an isolated node: every node is the source
    or the target of some edge, because nodes only enter the graph as the
    endpoints of an edge. *)
Theorem no_isolated_node (G : DiGraph) :
  reachable G ->
  forall n, In n (nodes G) ->
    exists m, has_edge G n m = true \/ has_edge G m n = true.
Proof.
  induction 1 as [|G G' seq k HG IH E]; intros n Hin.
  - destruct Hin.
  - destruct (add_sequence_to_graph_adds seq G k (reachable_well_formed G HG))
      as (G1 & E1 & _ & He & _ & _ & Hn).
    assert (G1 = G') by congruence. subst G1.
    apply Hn in Hin. destruct Hin as [Hin|Hin].
    + destruct (IH n Hin) as [m [Hm|Hm]]; exists m; [left | right];
        apply He; now left.
    + apply in_flat_map in Hin. destruct Hin as (kmer & Hkmer & Hin).
      assert (Hedge : has_edge G' (PyStr (prefix_of kmer))
                                  (PyStr (suffix_of kmer)) = true).
      { apply He. right. apply in_map_iff. exists kmer. now split. }
      destruct Hin as [<-|[<-|[]]]; eauto.
Qed.

Lemma no_isolated_node_witness :
  exists G,
    add_sequence_to_graph "ACGT" DiGraph_new 3 = Ok G /\
    forall n, In n (nodes G) ->
      exists m, has_edge G n m = true \/ has_edge G m n = true.
Proof.
  eexists. split; [vm_compute; reflexivity|].
  apply no_isolated_node.
  eapply (reachable_ingest _ _ "ACGT" 3); [apply reachable_new|].
  vm_compute. reflexivity.
Defined.

(** ** A window length of zero or less *)

Lemma substring_zero (s : string) : forall n : nat, substring n 0 s = "".
Proof.
  induction s as [|c s IH]; intros [|n]; simpl; try reflexivity. apply IH.
Qed.

(** With [k <= 0] the last index the loop visits lies at or past the end of
    the sequence, where the slice is empty. *)
Lemma kmer_at_past_end (seq : string) (k : Z) :
  k <= 0 -> kmer_at seq k (len seq - k) = "".
Proof.
  intro Hk. unfold kmer_at, py_slice, slice_bounds, slice_index.
  assert (Hlen : 0 <= len seq) by (unfold len; lia).
  assert (E1 : (len seq - k <? 0) = false) by lia.
  assert (E2 : (len seq - k + k <? 0) = false) by lia.
  rewrite E1, E2.
  replace (Z.min (len seq - k + k) (len seq) - Z.min (len seq - k) (len seq))
    with 0 by lia.
  apply substring_zero.
Qed.

Lemma kmers_zero (seq : string) (t : string) : In t (kmers seq 0) -> t = "".
Proof.
  intro H. apply In_kmers in H. destruct H as (i & H0 & H1 & ->).
  destruct (kmer_at_window seq 0 i) as [-> _]; try lia.
  apply substring_zero.
Qed.

(** X10.  A window length [k <= 0] is not rejected either: ingesting any
    sequence, the empty one included, into a reachable graph then returns a
    graph that has the empty string as a node with a loop on it.  With
    [k = 0] that node and that loop are all that is added. *)
Theorem nonpositive_k_adds_empty_loop (seq : string) (G : DiGraph) (k : Z) :
  k <= 0 -> reachable G ->
  exists G',
    add_sequence_to_graph seq G k = Ok G' /\
    has_node G' (PyStr "") = true /\
    has_edge G' (PyStr "") (PyStr "") = true /\
    (k = 0 ->
     (forall n, In n (nodes G') <-> In n (nodes G) \/ n = PyStr "") /\
     (forall u v, has_edge G' u v = true <->
                  has_edge G u v = true \/ (u = PyStr "" /\ v = PyStr ""))).
Proof.
  intros Hk HG.
  destruct (add_sequence_to_graph_adds seq G k (reachable_well_formed G HG))
    as (G' & E & _ & He & _ & _ & Hn).
  assert (Hlen : 0 <= len seq) by (unfold len; lia).
  assert (Hempty : In "" (kmers seq k)).
  { apply In_kmers. exists (len seq - k). split; [lia|]. split; [lia|].
    symmetry. now apply kmer_at_past_end. }
  exists G'. split; [assumption|]. split; [|split].
  - apply has_node_In, Hn. right. apply in_flat_map. exists "".
    split; [assumption | now left].
  - apply He. right. apply in_map_iff. exists "". now split.
  - intros ->. split.
    + intro n. rewrite Hn, in_flat_map. split.
      * intros [H|(t & Ht & H)]; [now left|]. right.
        apply kmers_zero in Ht. subst t. destruct H as [<-|[<-|[]]]; reflexivity.
      * intros [H| ->]; [now left|]. right. exists "". split; [assumption | now left].
    + intros u v. rewrite He, in_map_iff. split.
      * intros [H|(t & Et & Ht)]; [now left|]. right.
        apply kmers_zero in Ht. subst t. now injection Et as <- <-.
      * intros [H|[-> ->]]; [now left|]. right. exists "". now split.
Qed.

Lemma nonpositive_k_adds_empty_loop_witness :
  exists G',
    add_sequence_to_graph "" DiGraph_new (-2) = Ok G' /\
    has_node G' (PyStr "") = true /\
    has_edge G' (PyStr "") (PyStr "") = true /\
    (-2 = 0 ->
     (forall n, In n (nodes G') <-> In n (nodes DiGraph_new) \/ n = PyStr "") /\
     (forall u v, has_edge G' u v = true <->
                  has_edge DiGraph_new u v = true \/
                  (u = PyStr "" /\ v = PyStr ""))).
Proof.
  apply (nonpositive_k_adds_empty_loop "" DiGraph_new (-2)); [lia | constructor].
Defined.

(** ** Joining two sequences *)

Lemma string_length_append (a b : string) :
  String.length (a ++ b) = (String.length a + String.length b)%nat.
Proof. induction a as [|c a IH]; simpl; [reflexivity | now rewrite IH]. Qed.

Lemma substring_append_l (s1 s2 : string) : forall n m : nat,
  (n + m <= String.length s1)%nat ->
  substring n m (s1 ++ s2) = substring n m s1.
Proof.
  induction s1 as [|c s1 IH]; intros n m H; simpl in H.
  - assert (n = 0%nat) by lia. assert (m = 0%nat) by lia. subst.
    simpl. now destruct s2.
  - destruct n as [|n]; simpl.
    + destruct m as [|m]; [reflexivity|]. f_equal. apply IH. lia.
    + apply IH. lia.
Qed.

Lemma substring_append_r (s1 s2 : string) (n m : nat) :
  substring (String.length s1 + n) m (s1 ++ s2) = substring n m s2.
Proof. induction s1 as [|c s1 IH]; simpl; [reflexivity | exact IH]. Qed.

Lemma len_append (a b : string) : len (a ++ b) = len a + len b.
Proof. unfold len. rewrite string_length_append. lia. Qed.

(** The k-mers of two sequences are k-mers of the joined sequence. *)
Lemma kmers_append (s1 s2 : string) (k : Z) (t : string) :
  0 <= k -> In t (kmers s1 k) \/ In t (kmers s2 k) -> In t (kmers (s1 ++ s2) k).
Proof.
  assert (Hl1 : 0 <= len s1) by (unfold len; lia).
  assert (Hl2 : 0 <= len s2) by (unfold len; lia).
  intros Hk [H|H]; apply In_kmers in H; destruct H as (i & H0 & H1 & ->);
    apply In_kmers.
  - exists i. split; [assumption|]. split; [rewrite len_append; lia|].
    destruct (kmer_at_window s1 k i) as [-> _]; try assumption.
    destruct (kmer_at_window (s1 ++ s2) k i) as [-> _]; try assumption.
    + rewrite len_append. lia.
    + symmetry. apply substring_append_l. unfold len in H1. lia.
  - exists (len s1 + i).
    split; [lia|]. split; [rewrite len_append; lia|].
    destruct (kmer_at_window s2 k i) as [-> _]; try assumption.
    destruct (kmer_at_window (s1 ++ s2) k (len s1 + i)) as [-> _]; try lia.
    + rewrite len_append. lia.
    + unfold len. rewrite Z2Nat.inj_add, Nat2Z.id by lia.
      symmetry. apply substring_append_r.
Qed.

(** X11.  Joining two sequences loses nothing: for [k >= 0], every node and
    every edge obtained by ingesting [s1] and then [s2] into a reachable
    graph is also obtained by ingesting [s1 ++ s2] into that graph, which
    may add the k-mers across the junction; so the joined ingestion has at
    least as many nodes and edges. *)
Theorem joining_sequences_loses_nothing (s1 s2 : string) (G : DiGraph) (k : Z) :
  0 <= k -> reachable G ->
  exists G12 Gj,
    ingest_all [s1; s2] k G = Ok G12 /\
    add_sequence_to_graph (s1 ++ s2) G k = Ok Gj /\
    (forall n, In n (nodes G12) -> In n (nodes Gj)) /\
    (forall u v, has_edge G12 u v = true -> has_edge Gj u v = true) /\
    number_of_nodes G12 <= number_of_nodes Gj /\
    number_of_edges G12 <= number_of_edges Gj.
Proof.
  intros Hk HG. pose proof (reachable_well_formed G HG) as Hwf.
  destruct (ingest_all_adds [s1; s2] k G Hwf) as (G12 & E12 & _ & He12 & _ & _ & Hn12).
  destruct (add_sequence_to_graph_adds (s1 ++ s2) G k Hwf)
    as (Gj & Ej & _ & Hej & _ & _ & Hnj).
  exists G12, Gj. split; [assumption|]. split; [assumption|].
  assert (Hsub : forall t, In t (all_kmers [s1; s2] k) -> In t (kmers (s1 ++ s2) k)).
  { intros t Ht. unfold all_kmers in Ht. simpl in Ht. rewrite app_nil_r in Ht.
    apply in_app_iff in Ht. now apply kmers_append. }
  assert (Hnodes : forall n, In n (nodes G12) -> In n (nodes Gj)).
  { intros n Hin. apply Hnj. apply Hn12 in Hin. destruct Hin as [H|H]; [now left|].
    right. apply in_flat_map in H. destruct H as (t & Ht & H).
    apply in_flat_map. exists t. split; [now apply Hsub | assumption]. }
  assert (Hedges : forall u v, has_edge G12 u v = true -> has_edge Gj u v = true).
  { intros u v Huv. apply Hej. apply He12 in Huv. destruct Huv as [H|H]; [now left|].
    right. apply in_map_iff in H. destruct H as (t & Et & Ht).
    apply in_map_iff. exists t. split; [assumption | now apply Hsub]. }
  split; [assumption|]. split; [assumption|].
  assert (H12 : reachable G12) by (eapply ingest_all_reachable; eassumption).
  assert (Hj : reachable Gj) by exact (reachable_ingest G Gj _ k HG Ej).
  split.
  - rewrite !number_of_nodes_length. apply inj_le.
    apply NoDup_incl_length; [apply reachable_NoDup; assumption|].
    intros n. apply Hnodes.
  - unfold number_of_edges. apply inj_le.
    apply NoDup_incl_length; [apply reachable_NoDup; assumption|].
    intros [u v] Hin.
    apply (In_edges_has_edge Gj u v (reachable_well_formed Gj Hj)).
    apply Hedges.
    now apply (In_edges_has_edge G12 u v (reachable_well_formed G12 H12)).
Qed.

Lemma joining_sequences_loses_nothing_witness :
  exists G12 Gj,
    ingest_all ["ACG"; "TTA"] 3 DiGraph_new = Ok G12 /\
    add_sequence_to_graph "ACGTTA" DiGraph_new 3 = Ok Gj /\
    (forall n, In n (nodes G12) -> In n (nodes Gj)) /\
    (forall u v, has_edge G12 u v = true -> has_edge Gj u v = true) /\
    number_of_nodes G12 <= number_of_nodes Gj /\
    number_of_edges G12 <= number_of_edges Gj.
Proof.
  apply (joining_sequences_loses_nothing "ACG" "TTA" DiGraph_new 3);
    [lia | constructor].
Defined.

(** ** How much one ingestion can add *)



(** ** Sequences that bring nothing new *)

(** X13.  Ingesting a sequence all of whose k-mers already have their edge
    in a reachable graph returns that graph unchanged, as a whole: the same
    nodes in the same order, the same edges, the same data. *)
Theorem seen_kmers_change_nothing (seq : string) (G : DiGraph) (k : Z) :
  reachable G ->
  (forall t, In t (kmers seq k) ->
             has_edge G (PyStr (prefix_of t)) (PyStr (suffix_of t)) = true) ->
  add_sequence_to_graph seq G k = Ok G.
Proof.
  intros HG Hseen. rewrite add_sequence_to_graph_loop.
  apply loop_fixed; [now apply reachable_well_formed|].
  intros i Hi. apply Hseen. unfold kmers. now apply in_map.
Qed.

Lemma seen_kmers_change_nothing_witness :
  exists G,
    add_sequence_to_graph "ACGTACGT" DiGraph_new 3 = Ok G /\
    add_sequence_to_graph "CGTAC" G 3 = Ok G.
Proof.
  eexists.
  assert (E : add_sequence_to_graph "ACGTACGT" DiGraph_new 3 =
              Ok (mkDiGraph []
                    [(PyStr "AC", []); (PyStr "CG", []); (PyStr "GT", []);
                     (PyStr "TA", [])]
                    [(PyStr "AC", [(PyStr "CG", [])]);
                     (PyStr "CG", [(PyStr "GT", [])]);
                     (PyStr "GT", [(PyStr "TA", [])]);
                     (PyStr "TA", [(PyStr "AC", [])])]
                    [(PyStr "AC", [(PyStr "TA", [])]);
                     (PyStr "CG", [(PyStr "AC", [])]);
                     (PyStr "GT", [(PyStr "CG", [])]);
                     (PyStr "TA", [(PyStr "GT", [])])]))
    by reflexivity.
  split; [exact E|].
  apply seen_kmers_change_nothing.
  - exact (reachable_ingest _ _ "ACGTACGT" 3 reachable_new E).
  - intros t Ht. simpl in Ht.
    destruct Ht as [<-|[<-|[<-|[]]]]; reflexivity.
Defined.

(** ** What a reachable graph never holds *)

(** X14.  Every reachable graph is consistent and plain: [_node], [_succ]
    and [_pred] list the same keys in the same order and none twice; [u] is
    recorded as a predecessor of [v] exactly when [v] is recorded as a
    successor of [u], with the same data; every node is a string, never
    [None]; the data of every edge is [{}]; and the graph attributes are
    [{}]. *)
Theorem reachable_graph_is_plain (G : DiGraph) :
  reachable G ->
  well_formed G /\
  (forall n, In n (nodes G) -> exists t, n = PyStr t) /\
  (forall u v d, get_edge_data G u v = Some d -> d = []) /\
  graph G = [].
Proof.
  intro HG. split; [now apply reachable_well_formed|].
  induction HG as [|G G' seq k HG IH E].
  - split; [intros n []|]. split; [discriminate | reflexivity].
  - destruct IH as (Hn & Hd & Hg).
    destruct (add_sequence_to_graph_ok seq G k (reachable_well_formed G HG))
      as (G1 & E1 & _ & Hd1 & Hn1 & Hg1).
    assert (G1 = G') by congruence. subst G1. split; [|split].
    + intros n Hin. apply Hn1 in Hin.
      destruct Hin as [H|(i & _ & [->| ->])]; eauto.
    + intros u v d. rewrite Hd1.
      destruct (get_edge_data G u v) as [d0|] eqn:E0.
      * intro H. injection H as <-. eapply Hd. eassumption.
      * destruct (adds _ _ _ u v); [|discriminate]. intro H. now injection H.
    + congruence.
Qed.

Lemma reachable_graph_is_plain_witness :
  exists G,
    build_de_bruijn_graph [">r1"; "ACGT "; "AC"; ">r2"; "GGA"] 3 = Ok G /\
    well_formed G /\
    (forall n, In n (nodes G) -> exists t, n = PyStr t) /\
    (forall u v d, get_edge_data G u v = Some d -> d = []) /\
    graph G = [].
Proof.
  eexists. split; [vm_compute; reflexivity|].
  apply reachable_graph_is_plain.
  eapply (reachable_ingest _ _ "GGA" 3);
    [eapply (reachable_ingest _ _ "ACGTAC" 3); [apply reachable_new|] |];
    vm_compute; reflexivity.
Defined.

(** ** Line terminators *)

Lemma rstrip_blank (w : string) : is_blank w = true -> rstrip w = "".
Proof.
  induction w as [|c w IH]; simpl; [reflexivity|].
  intro H. apply andb_true_iff in H. destruct H as [Hc Hw].
  now rewrite (IH Hw), Hc.
Qed.

Lemma lstrip_blank (w : string) : is_blank w = true -> lstrip w = "".
Proof.
  induction w as [|c w IH]; simpl; [reflexivity|].
  intro H. apply andb_true_iff in H. destruct H as [Hc Hw].
  rewrite Hc. now apply IH.
Qed.

Lemma rstrip_app_blank (s w : string) :
  is_blank w = true -> rstrip (s ++ w) = rstrip s.
Proof.
  intro Hw. induction s as [|c s IH]; simpl.
  - now apply rstrip_blank.
  - now rewrite IH.
Qed.

Lemma strip_app_blank (line w : string) :
  is_blank w = true -> strip (line ++ w) = strip line.
Proof.
  intro Hw. unfold strip. induction line as [|c line IH].
  - simpl. now rewrite (lstrip_blank w Hw).
  - cbn [append lstrip]. destruct (isspace c); [exact IH|].
    apply (rstrip_app_blank (String c line) w Hw).
Qed.

Lemma startswith_gt_app_blank (line w : string) :
  is_blank w = true -> startswith_gt (line ++ w) = startswith_gt line.
Proof.
  intro Hw. destruct line as [|c line]; [|reflexivity].
  destruct w as [|c w]; [reflexivity|]. simpl in *.
  apply andb_true_iff in Hw. destruct Hw as [Hc _].
  destruct (Ascii.eqb c ">"%char) eqn:E; [|reflexivity].
  apply Ascii.eqb_eq in E. subst c. discriminate.
Qed.

Lemma fasta_records_from_app_blank (w : string) (lines : list string) :
  is_blank w = true ->
  forall seq,
    fasta_records_from seq (map (fun line => (line ++ w)%string) lines) =
    fasta_records_from seq lines.
Proof.
  intro Hw. induction lines as [|line rest IH]; intro seq; [reflexivity|].
  cbn [map fasta_records_from].
  rewrite (startswith_gt_app_blank line w Hw), (strip_app_blank line w Hw).
  now rewrite !IH.
Qed.

(** X15.  Line terminators play no part: appending the same whitespace-only
    string (a newline, a carriage return and a newline, trailing blanks) to
    every line of a text gives the result of the text without it, for every
    [k]. *)
Theorem line_terminators_are_irrelevant (w : string) (lines : list string)
  (k : Z) :
  is_blank w = true ->
  build_de_bruijn_graph (map (fun line => (line ++ w)%string) lines) k =
  build_de_bruijn_graph lines k.
Proof.
  intro Hw. rewrite !build_is_ingest_all. unfold fasta_records.
  now rewrite (fasta_records_from_app_blank w lines Hw).
Qed.

Lemma line_terminators_are_irrelevant_witness :
  let crlf := String (ascii_of_nat 13) (String (ascii_of_nat 10) "") in
  let lines := [">r1"; "ACGT"; "AC"; ""; ">r2"; "GGA"] in
  is_blank crlf = true /\
  build_de_bruijn_graph (map (fun line => (line ++ crlf)%string) lines) 3 =
  build_de_bruijn_graph lines 3.
Proof.
  intros crlf lines.
  assert (H : is_blank crlf = true) by reflexivity.
  split; [exact H | exact (line_terminators_are_irrelevant crlf lines 3 H)].
Defined.
